(** * Contact deduplication: the merge engine of [dedupe.js]

    A shallow embedding of the field normalizers, the name-similarity
    metric, the two name-similarity merge passes and the final ranking of
    [ContactDeduplicator] (src/dedupe.js), with the properties the
    specification states about them. *)

From Stdlib Require Import ZArith NArith QArith Lia Sorting.Sorted.
From Stdlib Require Import Strings.String Strings.Ascii.
From stdpp Require Import gmap list sorting.

Local Open Scope nat_scope.

(** ** JavaScript strings

    A JavaScript string is a sequence of UTF-16 code units; the regular
    expressions of [dedupe.js] carry no [u] flag and so work on code
    units.  A code unit is an [N]; a string is a list of them. *)

Abbreviation jsstring := (list N).

(** String literals of the source, written as Rocq strings. *)
Definition js (s : string) : jsstring :=
  List.map N_of_ascii (list_ascii_of_string s).

(** A value that is a string or [null]. *)
Abbreviation jsval := (option jsstring).

(** JavaScript truthiness of a string-or-null value: [null] and the empty
    string are falsy. *)
Definition truthy (v : jsval) : bool :=
  match v with
  | Some (_ :: _) => true
  | _ => false
  end.

(** The class [\s] of a regular expression without the [u] flag:
    TAB, LF, VT, FF, CR, SPACE, U+00A0, U+1680, U+2000..U+200A, U+2028,
    U+2029, U+202F, U+205F, U+3000 and U+FEFF. *)
Definition is_space (c : N) : bool :=
  ((9 <=? c) && (c <=? 13) || (c =? 32) || (c =? 160) || (c =? 5760)
   || (8192 <=? c) && (c <=? 8202) || (c =? 8232) || (c =? 8233)
   || (c =? 8239) || (c =? 8287) || (c =? 12288) || (c =? 65279))%N.

Definition is_upper (c : N) : bool := ((65 <=? c) && (c <=? 90))%N.
Definition is_lower (c : N) : bool := ((97 <=? c) && (c <=? 122))%N.

(** The class [a-zA-Z]. *)
Definition is_letter (c : N) : bool := is_upper c || is_lower c.

(** The class [\d]; [\D] is its complement. *)
Definition is_digit (c : N) : bool := ((48 <=? c) && (c <=? 57))%N.

Definition SPACE : N := 32%N.

(** [String.prototype.toLowerCase] on the strings it is applied to in
    [normalizeName]: after the replacement only ASCII letters and white
    space are left, and on those lowering a string maps A-Z to a-z and
    leaves every other code unit alone. *)
Definition lower_unit (c : N) : N := if is_upper c then (c + 32)%N else c.
Definition toLowerCase (s : jsstring) : jsstring := List.map lower_unit s.

(** [s.split(/\s+/)]: the pieces between maximal runs of white space.  A
    run at the start or at the end of [s] leaves an empty piece there, and
    the empty string splits into one empty piece. *)
Fixpoint split_ws (s : jsstring) : list jsstring :=
  match s with
  | [] => [[]]
  | c :: s' =>
      if is_space c then
        match s' with
        | c' :: _ => if is_space c' then split_ws s' else [] :: split_ws s'
        | [] => [] :: split_ws s'
        end
      else
        match split_ws s' with
        | t :: ts => (c :: t) :: ts
        | [] => [[c]]
        end
  end.

(** [parts.join(' ')]. *)
Fixpoint join_sp (parts : list jsstring) : jsstring :=
  match parts with
  | [] => []
  | [p] => p
  | p :: ps => p ++ SPACE :: join_sp ps
  end.

(** [String.prototype.trim]: white space removed at both ends. *)
Fixpoint trim_start (s : jsstring) : jsstring :=
  match s with
  | c :: s' => if is_space c then trim_start s' else s
  | [] => []
  end.

Definition trim (s : jsstring) : jsstring :=
  rev (trim_start (rev (trim_start s))).

(** [s.substring(a, b)] for indices within [0 .. length s], as they are at
    every call of the source; the arguments are swapped when [a > b].
    [s.substring(a)] is [substring s a (length s)]. *)
Definition substring (s : jsstring) (a b : nat) : jsstring :=
  let lo := Nat.min a b in
  let hi := Nat.max a b in
  take (hi - lo) (drop lo s).

(** [s.startsWith(p)]. *)
Fixpoint startsWith (s p : jsstring) : bool :=
  match p, s with
  | [], _ => true
  | _ :: _, [] => false
  | d :: p', c :: s' => (c =? d)%N && startsWith s' p'
  end.

(** ** Field normalizers *)

(** [extractPhone(phoneStr)], dedupe.js lines 71-84. *)
Definition extractPhone (phoneStr : jsval) : jsval :=
  if negb (truthy phoneStr) then None
  else
    let cleaned := List.filter is_digit (default [] phoneStr) in
    if 10 <=? length cleaned then
      if startsWith cleaned (js "91") && (12 <=? length cleaned) then
        Some (substring cleaned 0 12)
      else
        Some (substring cleaned (length cleaned - 10) (length cleaned))
    else None.

(** [normalizeName(name)], dedupe.js lines 86-96.  The chain of string
    operations is [normalizeChain]. *)
Definition replace_non_letters (s : jsstring) : jsstring :=
  List.map (fun c => if is_letter c || is_space c then c else SPACE) s.

Definition normalizeChain (name : jsstring) : jsstring :=
  trim
    (join_sp
       (List.filter (fun part => 0 <? length part)
          (split_ws (toLowerCase (replace_non_letters name))))).

Definition normalizeName (name : jsval) : jsval :=
  match name with
  | Some (c :: s) => Some (normalizeChain (c :: s))
  | _ => None
  end.

(** ** Name similarity metric *)

(** One row of the matrix of [levenshteinDistance] after row [prev]:
    [left] is the cell just filled, [matrix[j][i - 1]]; the head of [prev]
    is [matrix[j - 1][i - 1]] and its second element [matrix[j - 1][i]]. *)
Fixpoint fill_row (c2 : N) (str1 : jsstring) (prev : list nat) (left : nat)
  : list nat :=
  match str1, prev with
  | c1 :: str1', diag :: up :: rest =>
      let cost := if (c1 =? c2)%N then 0 else 1 in
      let cell := Nat.min (Nat.min (up + 1) (left + 1)) (diag + cost) in
      cell :: fill_row c2 str1' (up :: rest) cell
  | _, _ => []
  end.

(** Rows [j], [j + 1], ... of the matrix, one per code unit of [str2]. *)
Fixpoint fill_rows (str1 str2 : jsstring) (prev : list nat) (j : nat)
  : list (list nat) :=
  match str2 with
  | [] => []
  | c2 :: str2' =>
      let row := j :: fill_row c2 str1 prev j in
      row :: fill_rows str1 str2' row (S j)
  end.

Definition levenshteinMatrix (str1 str2 : jsstring) : list (list nat) :=
  let row0 := seq 0 (S (length str1)) in
  row0 :: fill_rows str1 str2 row0 1.

(** [levenshteinDistance(str1, str2)], dedupe.js lines 395-413. *)
Definition levenshteinDistance (str1 str2 : jsstring) : nat :=
  default 0 (default [] (levenshteinMatrix str1 str2 !! length str2)
               !! length str1).

(** [getLevenshteinSimilarity(str1, str2)], dedupe.js lines 385-393.

    The source computes with IEEE doubles.  Every quotient it forms has an
    integer numerator and a denominator below 2^31 (a string length or a
    word count), and it is compared with a decimal literal of denominator
    at most 100; two such rationals that differ are further apart than the
    rounding error of a double, and rounding is monotone, so the
    comparisons of the source are the comparisons of the exact rationals
    used here. *)
Definition getLevenshteinSimilarity (str1 str2 : jsstring) : Q :=
  let longer := if length str2 <? length str1 then str1 else str2 in
  let shorter := if length str2 <? length str1 then str2 else str1 in
  if length longer =? 0 then 1%Q
  else
    let distance := levenshteinDistance longer shorter in
    ((Z.of_nat (length longer) - Z.of_nat distance)
       # Pos.of_nat (length longer))%Q.

(** [s.split(/\s+/).filter(w => w.length > 2)]. *)
Definition significantWords (s : jsstring) : list jsstring :=
  List.filter (fun w => 2 <? length w) (split_ws s).

(** The double loop of [areNamesSimilar] that counts the words of
    [words1] with a close word in [words2]; the inner loop stops at the
    first one. *)
Fixpoint hasCloseWord (word1 : jsstring) (words2 : list jsstring) : bool :=
  match words2 with
  | [] => false
  | word2 :: rest =>
      if Qle_bool (8 # 10) (getLevenshteinSimilarity word1 word2) then true
      else hasCloseWord word1 rest
  end.

Fixpoint countMatchingWords (words1 words2 : list jsstring) : nat :=
  match words1 with
  | [] => 0
  | word1 :: rest =>
      (if hasCloseWord word1 words2 then 1 else 0)
      + countMatchingWords rest words2
  end.

(** The local [similarity] of [areNamesSimilar]. *)
Definition wordSimilarity (words1 words2 : list jsstring) : Q :=
  (Z.of_nat (2 * countMatchingWords words1 words2)
     # Pos.of_nat (length words1 + length words2))%Q.

(** [areNamesSimilar(name1, name2, threshold)], dedupe.js lines 357-383. *)
Definition areNamesSimilar (name1 name2 : jsval) (threshold : Q) : bool :=
  match name1, name2 with
  | Some (c1 :: s1), Some (c2 :: s2) =>
      if bool_decide (c1 :: s1 = c2 :: s2) then true
      else
        let words1 := significantWords (c1 :: s1) in
        let words2 := significantWords (c2 :: s2) in
        if (length words1 =? 0) || (length words2 =? 0) then false
        else Qle_bool threshold (wordSimilarity words1 words2)
  | _, _ => false
  end.

(** ** Candidate records *)

(** A row of [initialResults]: the three name slots are strings (the query
    coalesces an absent name to ['N/A']), [email] and [phone] are a string
    or [null]. *)
Record Contact := {
  linkedin_name : jsstring;
  phonebook_name : jsstring;
  email_name : jsstring;
  email : jsval;
  phone : jsval
}.

Definition NA : jsstring := js "N/A".

(** [x !== 'N/A']. *)
Definition notNA (x : jsstring) : bool := negb (bool_decide (x = NA)).

(** [getNameForComparison(contact)], dedupe.js lines 562-567. *)
Definition getNameForComparison (contact : Contact) : jsval :=
  if notNA (linkedin_name contact) then Some (linkedin_name contact)
  else if notNA (phonebook_name contact) then Some (phonebook_name contact)
  else if notNA (email_name contact) then Some (email_name contact)
  else None.

(** [a && b && a !== b] on two hard identifiers. *)
Definition conflicting (a b : jsval) : bool :=
  truthy a && truthy b && negb (bool_decide (a = b)).

(** The five assignments that fold [candidate] into [current], dedupe.js
    lines 642-648 (and 546-550 in the exhaustive pass). *)
Definition absorb (current candidate : Contact) : Contact :=
  {| linkedin_name :=
       if notNA (linkedin_name candidate) then linkedin_name candidate
       else linkedin_name current;
     phonebook_name :=
       if notNA (phonebook_name candidate) then phonebook_name candidate
       else phonebook_name current;
     email_name :=
       if notNA (email_name candidate) then email_name candidate
       else email_name current;
     email :=
       if negb (truthy (email current)) && truthy (email candidate)
       then email candidate else email current;
     phone :=
       if negb (truthy (phone current)) && truthy (phone candidate)
       then phone candidate else phone current |}.

(** ** The inverted-index merge pass *)

(** An entry of a posting list of [nameIndex]. *)
Record IndexEntry := {
  e_index : nat;
  e_contact : Contact;
  e_name : jsval;
  e_normalized : jsval
}.

(** One round of [contacts.forEach((contact, index) => ...)], dedupe.js
    lines 574-588.  [normalized] is a string there, the name being
    truthy. *)
Definition indexContact (nameIndex : gmap jsstring (list IndexEntry))
    (index : nat) (contact : Contact) : gmap jsstring (list IndexEntry) :=
  let name := getNameForComparison contact in
  if truthy name then
    let normalized := normalizeName name in
    let words := significantWords (default [] normalized) in
    let entry := {| e_index := index; e_contact := contact;
                    e_name := name; e_normalized := normalized |} in
    foldl (fun idx word => <[word := default [] (idx !! word) ++ [entry]]> idx)
      nameIndex words
  else nameIndex.

Fixpoint buildIndexFrom (nameIndex : gmap jsstring (list IndexEntry))
    (index : nat) (contacts : list Contact) : gmap jsstring (list IndexEntry) :=
  match contacts with
  | [] => nameIndex
  | contact :: rest =>
      buildIndexFrom (indexContact nameIndex index contact) (S index) rest
  end.

Definition buildIndex (contacts : list Contact)
  : gmap jsstring (list IndexEntry) :=
  buildIndexFrom ∅ 0 contacts.

(** The loop state of [mergeSimilarContactsFocused].  [merged],
    [processed] and [mergeCount] are the three locals of the source;
    [origins] and [mergeLog] are a record of the run: the index behind
    each record pushed on [merged], and one pair (absorber, absorbed) per
    ["Merging: ..."] line the source logs. *)
Record MergeState := {
  merged : list Contact;
  processed : gset nat;
  mergeCount : nat;
  origins : list nat;
  mergeLog : list (nat * nat)
}.

Definition initState : MergeState :=
  {| merged := []; processed := ∅; mergeCount := 0;
     origins := []; mergeLog := [] |}.

(** [processed.add(i)]. *)
Definition markProcessed (i : nat) (st : MergeState) : MergeState :=
  {| merged := merged st; processed := {[i]} ∪ processed st;
     mergeCount := mergeCount st;
     origins := origins st; mergeLog := mergeLog st |}.

(** [merged.push(current)] for the record that started as [contacts[i]]. *)
Definition pushMerged (i : nat) (current : Contact) (st : MergeState)
  : MergeState :=
  {| merged := merged st ++ [current]; processed := processed st;
     mergeCount := mergeCount st;
     origins := origins st ++ [i]; mergeLog := mergeLog st |}.

(** [processed.add(j); mergeCount++] after [contacts[j]] was folded into the
    record of [i]. *)
Definition recordMerge (i j : nat) (st : MergeState) : MergeState :=
  {| merged := merged st; processed := {[j]} ∪ processed st;
     mergeCount := S (mergeCount st);
     origins := origins st; mergeLog := mergeLog st ++ [(i, j)] |}.

(** [candidates.add(x)] on a [Set], which iterates in insertion order. *)
Definition setAdd (x : nat) (s : list nat) : list nat :=
  if bool_decide (x ∈ s) then s else s ++ [x].

(** The candidate set of the record of [i], dedupe.js lines 611-620. *)
Definition collectCandidates (nameIndex : gmap jsstring (list IndexEntry))
    (i : nat) (processed : gset nat) (currentWords : list jsstring)
  : list nat :=
  foldl (fun candidates word =>
           match nameIndex !! word with
           | Some entries =>
               foldl (fun candidates entry =>
                        if bool_decide (e_index entry ≠ i)
                           && bool_decide (e_index entry ∉ processed)
                        then setAdd (e_index entry) candidates
                        else candidates)
                 candidates entries
           | None => candidates
           end)
    [] currentWords.

(** One round of [for (const j of candidates)], dedupe.js lines 623-653.
    Every [j] of a posting list is an index of [contacts]. *)
Definition tryMerge (contacts : list Contact) (i : nat)
    (currentNormalized : jsval) (acc : Contact * MergeState) (j : nat)
  : Contact * MergeState :=
  let '(current, st) := acc in
  if bool_decide (j ∈ processed st) then acc
  else
    match contacts !! j with
    | None => acc
    | Some candidate =>
        if conflicting (email current) (email candidate) then acc
        else if conflicting (phone current) (phone candidate) then acc
        else
          let candidateName := getNameForComparison candidate in
          if truthy candidateName
             && areNamesSimilar currentNormalized
                  (normalizeName candidateName) (7 # 10)
          then (absorb current candidate, recordMerge i j st)
          else acc
    end.

(** One round of the main loop, dedupe.js lines 595-656. *)
Definition processContact (contacts : list Contact)
    (nameIndex : gmap jsstring (list IndexEntry))
    (st : MergeState) (i : nat) : MergeState :=
  if bool_decide (i ∈ processed st) then st
  else
    match contacts !! i with
    | None => st
    | Some current =>
        let st := markProcessed i st in
        let currentName := getNameForComparison current in
        if negb (truthy currentName) then pushMerged i current st
        else
          let currentNormalized := normalizeName currentName in
          let currentWords :=
            significantWords (default [] currentNormalized) in
          let candidates :=
            collectCandidates nameIndex i (processed st) currentWords in
          let '(current, st) :=
            foldl (tryMerge contacts i currentNormalized) (current, st)
              candidates in
          pushMerged i current st
    end.

(** [mergeSimilarContactsFocused(contacts)], dedupe.js lines 569-667: the
    state when the main loop ends; the source returns its [merged]. *)
Definition mergeSimilarContactsFocused (contacts : list Contact) : MergeState :=
  foldl (processContact contacts (buildIndex contacts)) initState
    (seq 0 (length contacts)).

(** ** The exhaustive merge pass *)

(** One round of [for (let j = i + 1; ...)], dedupe.js lines 528-554; the
    comparison name of [current] is read again at every round. *)
Definition tryMergePairwise (contacts : list Contact)
    (acc : Contact * gset nat) (j : nat) : Contact * gset nat :=
  let '(current, processed) := acc in
  if bool_decide (j ∈ processed) then acc
  else
    match contacts !! j with
    | None => acc
    | Some candidate =>
        if conflicting (email current) (email candidate) then acc
        else if conflicting (phone current) (phone candidate) then acc
        else
          let currentName := getNameForComparison current in
          let candidateName := getNameForComparison candidate in
          if truthy currentName && truthy candidateName
             && areNamesSimilar (normalizeName currentName)
                  (normalizeName candidateName) (7 # 10)
          then (absorb current candidate, {[j]} ∪ processed)
          else acc
    end.

(** One round of the main loop, dedupe.js lines 521-557. *)
Definition processContactPairwise (contacts : list Contact)
    (st : list Contact * gset nat) (i : nat) : list Contact * gset nat :=
  let '(merged, processed) := st in
  if bool_decide (i ∈ processed) then st
  else
    match contacts !! i with
    | None => st
    | Some current =>
        let '(current, processed) :=
          foldl (tryMergePairwise contacts) (current, {[i]} ∪ processed)
            (seq (S i) (length contacts - S i)) in
        (merged ++ [current], processed)
    end.

(** [mergeSimilarContacts(contacts)], dedupe.js lines 517-560. *)
Definition mergeSimilarContacts (contacts : list Contact) : list Contact :=
  fst (foldl (processContactPairwise contacts) ([], ∅)
         (seq 0 (length contacts))).

(** ** Sample values *)

(** Records and string values for the examples. *)
Definition str (s : string) : jsval := Some (js s).

Definition mkContact (l p e : string) (em ph : jsval) : Contact :=
  {| linkedin_name := js l; phonebook_name := js p; email_name := js e;
     email := em; phone := ph |}.

(** ** The phone rule of the specification *)

(** The rule of the specification for [extractPhone], in its words: strip
    the non-digits; fewer than 10 digits give [null]; a digit string that
    starts with 91 and has at least 12 digits gives its first 12 digits;
    any other gives its last 10 digits. *)
Definition extractPhone_spec (text : jsstring) : jsval :=
  let digits := List.filter is_digit text in
  if length digits <? 10 then None
  else if startsWith digits (js "91") && (12 <=? length digits)
       then Some (take 12 digits)
       else Some (drop (length digits - 10) digits).

(** ** The threshold example of the similarity metric *)

(** The two names of [test_similarity.js], normalized as the test does. *)
Definition name_abhijit : jsval := normalizeName (Some (js "abhijit hazari")).
Definition name_cg_abhijit : jsval :=
  normalizeName (Some (js "cg abhijit hazari")).

(** ** Normalized names *)

Definition nonempty (part : jsstring) : bool := 0 <? length part.

(** The pieces kept by [normalizeName] before they are joined. *)
Definition tokens (name : jsstring) : list jsstring :=
  List.filter nonempty (split_ws (toLowerCase (replace_non_letters name))).

(** A list of words as [normalizeName] joins them: no word is empty and
    all their code units are lower-case letters. *)
Definition canon (ws : list jsstring) : Prop :=
  Forall (fun w => w <> [] /\ Forall (fun c => is_lower c = true) w) ws.

Definition plain (s : jsstring) : Prop :=
  Forall (fun c => is_lower c = true \/ c = SPACE) s.

Definition spaceless (w : jsstring) : Prop :=
  Forall (fun c => is_space c = false) w.

Definition head_ok (s : jsstring) : Prop :=
  match s with
  | [] => True
  | c :: _ => is_space c = false
  end.

(** ** The inverted-index merge pass: what a run does *)

(** The record of [current] after the candidates [js] were folded into it,
    in that order. *)
Definition foldAbsorb (contacts : list Contact) (current : Contact)
    (js : list nat) : Contact :=
  foldl (fun cur j =>
           match contacts !! j with
           | Some candidate => absorb cur candidate
           | None => cur
           end) current js.

(** Every candidate of [js] passed the tests of lines 629-638 against the
    record it was folded into: no conflicting e-mail, no conflicting phone,
    a truthy comparison name similar to [currentNormalized] at 0.7. *)
Fixpoint validFold (contacts : list Contact) (currentNormalized : jsval)
    (current : Contact) (js : list nat) : Prop :=
  match js with
  | [] => True
  | j :: js' =>
      exists candidate,
        contacts !! j = Some candidate
        /\ conflicting (email current) (email candidate) = false
        /\ conflicting (phone current) (phone candidate) = false
        /\ truthy (getNameForComparison candidate) = true
        /\ areNamesSimilar currentNormalized
             (normalizeName (getNameForComparison candidate)) (7 # 10) = true
        /\ validFold contacts currentNormalized (absorb current candidate) js'
  end.

(** The candidates the record of [i] absorbed, in merge order. *)
Definition absorbedBy (i : nat) (log : list (nat * nat)) : list nat :=
  snd <$> (filter (fun p => fst p = i) log).

(** The significant words of the comparison name of a record. *)
Definition wordsOf (contact : Contact) : list jsstring :=
  significantWords
    (default [] (normalizeName (getNameForComparison contact))).

(** Every entry of a posting list points at a record whose comparison name
    has the word of the list among its significant words. *)
Definition indexSound (contacts : list Contact)
    (nameIndex : gmap jsstring (list IndexEntry)) : Prop :=
  forall word entries entry,
    nameIndex !! word = Some entries -> entry ∈ entries ->
    exists contact,
      contacts !! e_index entry = Some contact /\ word ∈ wordsOf contact.

(** Two records share a word when a significant word of the comparison
    name of one is a significant word of the comparison name of the
    other. *)
Definition sharesWord (contacts : list Contact) (i j : nat) : Prop :=
  exists ci cj word,
    contacts !! i = Some ci /\ contacts !! j = Some cj
    /\ word ∈ wordsOf ci /\ word ∈ wordsOf cj.

(** The state of the main loop after the rounds [0 .. k - 1]. *)
Record PassInv (contacts : list Contact) (k : nat) (st : MergeState) : Prop := {
  inv_length : length (merged st) = length (origins st);
  inv_count : mergeCount st = length (mergeLog st);
  inv_processed : forall x,
    x ∈ processed st <-> x ∈ origins st \/ x ∈ snd <$> mergeLog st;
  inv_done : forall x, x < k -> x ∈ processed st;
  inv_bound : forall x, x ∈ processed st -> x < length contacts;
  inv_nodup : NoDup (origins st ++ (snd <$> mergeLog st));
  inv_log : forall i j,
    (i, j) ∈ mergeLog st ->
    i ∈ origins st /\ i < j /\ sharesWord contacts i j;
  inv_group : forall p i r,
    origins st !! p = Some i -> merged st !! p = Some r ->
    exists current0,
      contacts !! i = Some current0
      /\ r = foldAbsorb contacts current0 (absorbedBy i (mergeLog st))
      /\ validFold contacts (normalizeName (getNameForComparison current0))
           current0 (absorbedBy i (mergeLog st))
}.

(** A record without any name between two records of one person. *)
Definition nameless_sample : list Contact :=
  [mkContact "Asha Rao" "N/A" "N/A" None None;
   mkContact "N/A" "N/A" "N/A" (str "asha@x.com") None;
   mkContact "N/A" "Asha Rao" "N/A" None (str "9876543210")].

(** Two records whose names share the word "john". *)
Definition shared_word_sample : list Contact :=
  [mkContact "John Smith" "N/A" "N/A" None None;
   mkContact "N/A" "John Smyth" "N/A" None (str "9876543210")].

(** ** Hard identifiers within a merge group *)

(** The tests on one hard identifier [key] (the e-mail, or the phone)
    along a fold. *)
Fixpoint keyChain (key : Contact -> jsval) (contacts : list Contact)
    (current : Contact) (js : list nat) : Prop :=
  match js with
  | [] => True
  | j :: js' =>
      exists candidate,
        contacts !! j = Some candidate
        /\ conflicting (key current) (key candidate) = false
        /\ keyChain key contacts (absorb current candidate) js'
  end.

(** Two input records are in the same merge group when one output record
    is the fold of both: each is the record the group started from or was
    absorbed by it. *)
Definition sameGroup (st : MergeState) (a b : nat) : Prop :=
  exists i,
    i ∈ origins st
    /\ (a = i \/ (i, a) ∈ mergeLog st)
    /\ (b = i \/ (i, b) ∈ mergeLog st).

(** Three records of one name; the second has an e-mail of its own. *)
Definition same_email_sample : list Contact :=
  [mkContact "Asha Rao" "N/A" "N/A" (str "asha@x.com") None;
   mkContact "N/A" "N/A" "Asha Rao" (str "other@x.com") None;
   mkContact "N/A" "Asha Rao" "N/A" (str "asha@x.com") (str "9876543210")].

(** ** Name slots within a merge group *)

Inductive NameSlot := LinkedinSlot | PhonebookSlot | EmailSlot.

Definition slotName (slot : NameSlot) (contact : Contact) : jsstring :=
  match slot with
  | LinkedinSlot => linkedin_name contact
  | PhonebookSlot => phonebook_name contact
  | EmailSlot => email_name contact
  end.

(** A record that absorbs two candidates, the first with a professional
    network name of its own. *)
Definition last_writer_sample : list Contact :=
  [mkContact "John Smith" "N/A" "N/A" None None;
   mkContact "John Smyth" "N/A" "N/A" None None;
   mkContact "N/A" "John Smith" "N/A" None (str "9876543210")].

(** ** Ranking *)

(** [aScore] of the comparator of [deduplicateContacts], dedupe.js line
    497. *)
Definition score (contact : Contact) : Z :=
  if notNA (linkedin_name contact) then 1%Z
  else if notNA (phonebook_name contact) then 2%Z
  else 3%Z.

(** [aName || ''], dedupe.js lines 502 and 505; the name slots are
    strings, for which [x || ''] is [x]. *)
Definition sortName (contact : Contact) : jsstring :=
  if notNA (linkedin_name contact) then linkedin_name contact
  else if notNA (phonebook_name contact) then phonebook_name contact
  else email_name contact.

(** [Array.prototype.sort(comparefn)].  The language fixes its result for
    a consistent comparator: the permutation in the order of the
    comparator that keeps equal elements in their input order.  Inserting
    every element in front of the sorted rest computes that
    permutation. *)
Fixpoint insertSorted {A} (comparefn : A -> A -> Z) (x : A) (l : list A)
  : list A :=
  match l with
  | [] => [x]
  | y :: l' =>
      if (comparefn x y <=? 0)%Z then x :: y :: l'
      else y :: insertSorted comparefn x l'
  end.

Definition jsSort {A} (comparefn : A -> A -> Z) (l : list A) : list A :=
  foldr (insertSorted comparefn) [] l.

(** Code units compared one by one: a comparator to run the ranking
    with. *)
Fixpoint compareUnits (a b : jsstring) : Z :=
  match a, b with
  | [], [] => 0
  | [], _ :: _ => -1
  | _ :: _, [] => 1
  | x :: a', y :: b' =>
      if (x <? y)%N then -1
      else if (y <? x)%N then 1
      else compareUnits a' b'
  end.

(** The comparator of the final sort, dedupe.js lines 496-506;
    [localeCompare] is [String.prototype.localeCompare], which the host
    provides. *)
Definition compareContacts (localeCompare : jsstring -> jsstring -> Z)
    (a b : Contact) : Z :=
  if negb (score a =? score b)%Z then (score a - score b)%Z
  else localeCompare (sortName a) (sortName b).

(** [deduplicateContacts] from the merged records on: the final sort. *)
Definition rankContacts (localeCompare : jsstring -> jsstring -> Z)
    (mergedResults : list Contact) : list Contact :=
  jsSort (compareContacts localeCompare) mergedResults.

(** [a] may stand before [b] in the order of the comparator. *)
Definition ranked (localeCompare : jsstring -> jsstring -> Z)
    (a b : Contact) : Prop :=
  (compareContacts localeCompare a b <= 0)%Z.

(** Five merged records of the three priorities, out of order. *)
Definition ranking_sample : list Contact :=
  [mkContact "N/A" "N/A" "Zed Young" (str "zed@x.com") None;
   mkContact "N/A" "Bob Stone" "N/A" None (str "9876543210");
   mkContact "Amy Wong" "N/A" "Amy" (str "amy@x.com") None;
   mkContact "N/A" "N/A" "Carl Marsh" (str "carl@x.com") None;
   mkContact "Aaron Burr" "Aaron" "N/A" None (str "2125550100")].

(** Six merged records, two of each priority, each pair out of order. *)
Definition ranking_ties_sample : list Contact :=
  [mkContact "N/A" "N/A" "Zed Young" (str "zed@x.com") None;
   mkContact "N/A" "Bob Stone" "Alan" None (str "9876543210");
   mkContact "Amy Wong" "N/A" "Amy" (str "amy@x.com") None;
   mkContact "N/A" "Abe Ford" "Zoe" (str "abe@x.com") None;
   mkContact "N/A" "N/A" "Carl Marsh" (str "carl@x.com") None;
   mkContact "Aaron Burr" "Zack" "N/A" None (str "2125550100")].

(** ** Edit distance *)

(** The recurrence the matrix of [levenshteinDistance] is filled by, as a
    function of the two strings read from their last code units: a cell
    is the least of the cell above plus 1, the cell to the left plus 1 and
    the cell diagonally above plus the cost of the substitution.  The
    arguments are the strings reversed. *)
Fixpoint editDistance (a : jsstring) : jsstring -> nat :=
  fix inner (b : jsstring) : nat :=
    match a with
    | [] => length b
    | x :: a' =>
        match b with
        | [] => length a
        | y :: b' =>
            Nat.min (Nat.min (editDistance a' b + 1) (inner b' + 1))
              (editDistance a' b' + (if (x =? y)%N then 0 else 1))
        end
    end.

(** A row of the matrix from the column of the reversed prefix [ra] of
    [str1] on, for the reversed prefix [rb] of [str2]. *)
Fixpoint rowFrom (ra suffix rb : jsstring) : list nat :=
  editDistance ra rb
  :: match suffix with
     | [] => []
     | x :: suffix' => rowFrom (x :: ra) suffix' rb
     end.

(** ** More sample values *)

(** A record without identifiers and a later record of the same name with
    both. *)
Definition keeps_identifiers_sample : list Contact :=
  [mkContact "Asha Rao" "N/A" "N/A" None None;
   mkContact "N/A" "Asha Rao" "N/A" (str "asha@x.com") (str "9876543210")].

(** No later record has a name similar to the name of an earlier one. *)
Definition noSimilarPair (contacts : list Contact) : Prop :=
  forall i j ci cj,
    i < j -> contacts !! i = Some ci -> contacts !! j = Some cj ->
    areNamesSimilar (normalizeName (getNameForComparison ci))
      (normalizeName (getNameForComparison cj)) (7 # 10) = false.

(** Three records of three persons. *)
Definition dissimilar_sample : list Contact :=
  [mkContact "Amy Wong" "N/A" "N/A" None None;
   mkContact "N/A" "Bob Stone" "N/A" None (str "9876543210");
   mkContact "N/A" "N/A" "N/A" (str "zed@x.com") None].

(** ** E-mail extraction *)

Definition AT : N := 64%N.
Definition DOT : N := 46%N.

(** The class [a-zA-Z0-9._%+-] of the local part. *)
Definition is_local (c : N) : bool :=
  (is_letter c || is_digit c || (c =? 46) || (c =? 95) || (c =? 37)
   || (c =? 43) || (c =? 45))%N.

(** The class [a-zA-Z0-9.-] of the domain. *)
Definition is_domain (c : N) : bool :=
  (is_letter c || is_digit c || (c =? 46) || (c =? 45))%N.

(** The pieces of the regular expression of [extractEmail], each followed
    by the rest [k] of the expression, in the order a backtracking matcher
    tries them: a greedy [X*] takes a code unit of the class when it can
    and gives it back when the rest fails. *)
Fixpoint starClass (p : N -> bool) (s : jsstring)
    (k : jsstring -> option jsstring) : option jsstring :=
  match s with
  | c :: s' =>
      if p c then
        match starClass p s' k with
        | Some rest => Some rest
        | None => k s
        end
      else k s
  | [] => k []
  end.

(** [X+]. *)
Definition plusClass (p : N -> bool) (s : jsstring)
    (k : jsstring -> option jsstring) : option jsstring :=
  match s with
  | c :: s' => if p c then starClass p s' k else None
  | [] => None
  end.

(** [X{2,}]. *)
Definition atLeast2 (p : N -> bool) (s : jsstring)
    (k : jsstring -> option jsstring) : option jsstring :=
  match s with
  | c1 :: c2 :: s' => if p c1 && p c2 then starClass p s' k else None
  | _ => None
  end.

(** One code unit. *)
Definition unit (c : N) (s : jsstring) (k : jsstring -> option jsstring)
  : option jsstring :=
  match s with
  | d :: s' => if (d =? c)%N then k s' else None
  | [] => None
  end.

(** [emailRegex] tried at the start of [s]: what follows the match. *)
Definition emailAt (s : jsstring) : option jsstring :=
  plusClass is_local s (fun s1 =>
  unit AT s1 (fun s2 =>
  plusClass is_domain s2 (fun s3 =>
  unit DOT s3 (fun s4 =>
  atLeast2 is_letter s4 (fun s5 => Some s5))))).

(** [address.match(emailRegex)]: the match at the first position that has
    one, [match[1]] being the whole match. *)
Fixpoint emailMatch (s : jsstring) : option jsstring :=
  match emailAt s with
  | Some rest => Some (take (length s - length rest) s)
  | None =>
      match s with
      | [] => None
      | _ :: s' => emailMatch s'
      end
  end.

(** [address.includes('@')]. *)
Definition includesAt (s : jsstring) : bool := existsb (N.eqb AT) s.

(** [extractEmail(address)], dedupe.js lines 55-69.  [hostLower] is
    [String.prototype.toLowerCase] of the host, which lowers more than
    A-Z on strings beyond ASCII. *)
Definition extractEmail (hostLower : jsstring -> jsstring) (address : jsval)
  : jsval :=
  if negb (truthy address) then None
  else
    match emailMatch (default [] address) with
    | Some m => Some (trim (hostLower m))
    | None =>
        if includesAt (default [] address)
        then Some (trim (hostLower (default [] address)))
        else None
    end.

(** A string of the shape of [emailRegex]: local part, [@], domain, [.],
    two letters or more. *)
Definition emailShape (m : jsstring) : Prop :=
  exists l d t,
    m = l ++ AT :: d ++ DOT :: t
    /\ l <> [] /\ Forall (fun c => is_local c = true) l
    /\ d <> [] /\ Forall (fun c => is_domain c = true) d
    /\ 2 <= length t /\ Forall (fun c => is_letter c = true) t.

(** An address with a display name around it. *)
Definition wrapped_address : jsstring := js "John Doe <John.Doe@Mail.Example.COM>".

(** ** Source adapters *)

(** A record pushed on [contacts] by an adapter; a key the adapter leaves
    out of the object literal is [None]. *)
Record RawContact := {
  raw_source : jsstring;
  raw_original_name : jsstring;
  raw_normalized_name : jsval;
  raw_email : jsval;
  raw_phone : jsval;
  raw_linkedin_name : jsval;
  raw_phonebook_name : jsval;
  raw_email_name : jsval
}.

(** [a || b] on values that are strings, [undefined] or [null]. *)
Definition jsOr (a b : jsval) : jsval := if truthy a then a else b.

(** [s.split(';')]: the pieces between the separators; the empty string
    gives one empty piece. *)
Fixpoint splitOn (sep : N) (s : jsstring) : list jsstring :=
  match s with
  | [] => [[]]
  | c :: s' =>
      if (c =? sep)%N then [] :: splitOn sep s'
      else
        match splitOn sep s' with
        | t :: ts => (c :: t) :: ts
        | [] => [[c]]
        end
  end.

Definition SEMICOLON : N := 59%N.

(** [processNameAndAddress(name, address, type)], dedupe.js lines 110-124:
    the contacts it pushes. *)
Definition processNameAndAddress (hostLower : jsstring -> jsstring)
    (source : jsstring) (name address : jsval) : list RawContact :=
  if truthy name && truthy address then
    let email := extractEmail hostLower address in
    if truthy email then
      [{| raw_source := source;
          raw_original_name := trim (default [] name);
          raw_normalized_name := normalizeName name;
          raw_email := email;
          raw_phone := None;
          raw_linkedin_name := None;
          raw_phonebook_name := None;
          raw_email_name := Some (trim (default [] name)) |}]
    else []
  else [].

(** [record[key] ? record[key].split(';') : []]. *)
Definition splitField (field : jsval) : list jsstring :=
  if truthy field then splitOn SEMICOLON (default [] field) else [].

(** [list[i] ? list[i].trim() : '']. *)
Definition trimmedAt (l : list jsstring) (i : nat) : jsval :=
  if truthy (l !! i) then Some (trim (default [] (l !! i))) else Some [].

(** The loop over the positions of a To or CC list, dedupe.js lines
    130-136 and 140-146. *)
Definition processAddressList (hostLower : jsstring -> jsstring)
    (source : jsstring) (names addresses : list jsstring) : list RawContact :=
  flat_map (fun i =>
              processNameAndAddress hostLower source
                (trimmedAt names i) (trimmedAt addresses i))
    (seq 0 (Nat.max (length names) (length addresses))).

(** One round of the [readable] loop of [processEmailCSV], dedupe.js lines
    109-147, on a record keyed by column header. *)
Definition processEmailRecord (hostLower : jsstring -> jsstring)
    (source : jsstring) (record : gmap jsstring jsstring) : list RawContact :=
  processNameAndAddress hostLower source
    (record !! js "From: (Name)") (record !! js "From: (Address)")
  ++ processAddressList hostLower source
       (splitField (record !! js "To: (Name)"))
       (splitField (record !! js "To: (Address)"))
  ++ processAddressList hostLower source
       (splitField (record !! js "CC: (Name)"))
       (splitField (record !! js "CC: (Address)")).

(** [processEmailCSV(filePath, source)] on the records the parser reads. *)
Definition processEmailCSV (hostLower : jsstring -> jsstring)
    (source : jsstring) (records : list (gmap jsstring jsstring))
  : list RawContact :=
  flat_map (processEmailRecord hostLower source) records.

(** The header test of [processLinkedInCSV], dedupe.js line 171. *)
Definition isLinkedInHeader (record : list jsstring) : bool :=
  bool_decide (record !! 0 = Some (js "First Name"))
  && bool_decide (record !! 1 = Some (js "Last Name")).

(** A data row of [processLinkedInCSV], dedupe.js lines 177-191. *)
Definition linkedInContact (hostLower : jsstring -> jsstring)
    (record : list jsstring) : list RawContact :=
  let firstName := default [] (jsOr (record !! 0) (Some [])) in
  let lastName := default [] (jsOr (record !! 1) (Some [])) in
  let email :=
    if truthy (record !! 3) then extractEmail hostLower (record !! 3)
    else None in
  let fullName := trim (firstName ++ SPACE :: lastName) in
  if truthy (Some fullName) then
    [{| raw_source := js "linkedin";
        raw_original_name := fullName;
        raw_normalized_name := normalizeName (Some fullName);
        raw_email := email;
        raw_phone := None;
        raw_linkedin_name := Some fullName;
        raw_phonebook_name := None;
        raw_email_name := None |}]
  else [].

(** One round of the [readable] loop of [processLinkedInCSV], dedupe.js
    lines 169-192, on the state [headerFound], [contacts]. *)
Definition processLinkedInRecord (hostLower : jsstring -> jsstring)
    (st : bool * list RawContact) (record : list jsstring)
  : bool * list RawContact :=
  let '(headerFound, contacts) := st in
  if negb headerFound then
    if isLinkedInHeader record then (true, contacts) else (headerFound, contacts)
  else (headerFound, contacts ++ linkedInContact hostLower record).

(** [processLinkedInCSV(filePath)] on the records the parser reads. *)
Definition processLinkedInCSV (hostLower : jsstring -> jsstring)
    (records : list (list jsstring)) : list RawContact :=
  snd (foldl (processLinkedInRecord hostLower) (false, []) records).

(** One round of the [readable] loop of [processPhonebookCSV], dedupe.js
    lines 214-235, on a record keyed by column header. *)
Definition processPhonebookRecord (hostLower : jsstring -> jsstring)
    (record : gmap jsstring jsstring) : list RawContact :=
  let fullName := jsOr (record !! js "Full Name") (Some []) in
  let email :=
    extractEmail hostLower
      (jsOr (jsOr (record !! js "E-mail Address")
               (record !! js "E-mail 2 Address"))
         (record !! js "E-mail 3 Address")) in
  let phone :=
    extractPhone
      (jsOr (jsOr (jsOr (jsOr (record !! js "Mobile Phone")
                           (record !! js "Primary Phone"))
                     (record !! js "Home Phone"))
               (record !! js "Business Phone"))
         (record !! js "Other Phone")) in
  if truthy fullName && truthy (jsOr email phone) then
    [{| raw_source := js "phonebook";
        raw_original_name := trim (default [] fullName);
        raw_normalized_name := normalizeName fullName;
        raw_email := email;
        raw_phone := phone;
        raw_linkedin_name := None;
        raw_phonebook_name := Some (trim (default [] fullName));
        raw_email_name := None |}]
  else [].

(** [processPhonebookCSV(filePath)] on the records the parser reads. *)
Definition processPhonebookCSV (hostLower : jsstring -> jsstring)
    (records : list (gmap jsstring jsstring)) : list RawContact :=
  flat_map (processPhonebookRecord hostLower) records.

(** A record of an Outlook export and a record of a phone book. *)
Definition mail_record : gmap jsstring jsstring :=
  <[js "From: (Name)" := js "Jane Doe"]>
  (<[js "From: (Address)" := js "jane@x.com"]>
  (<[js "To: (Name)" := js "Amy Wong; Bob Stone;Carl"]>
  (<[js "To: (Address)" := js "amy@x.com;;carl@x.com;dan@x.com"]> ∅))).

Definition phonebook_record : gmap jsstring jsstring :=
  <[js "Full Name" := js "Jane D."]>
  (<[js "Mobile Phone" := js "98765 43210"]>
  (<[js "Home Phone" := js "+91 11 2345 6789"]> ∅)).

(** An export of connections with two lines of notes before the header. *)
Definition linkedin_records : list (list jsstring) :=
  [[js "Notes:"];
   [js "Jane"; js "Doe"; js "url"; js "jane@x.com"];
   [js "First Name"; js "Last Name"; js "URL"; js "Email Address"];
   [js "Amy"; js "Wong"; js "url"; js ""];
   [js ""; js ""];
   [js "Bob"]].

(** ** Grouping rows by name *)

(** A row of the query of [performFuzzyMatching], dedupe.js lines
    316-321. *)
Record FuzzyRow := {
  row_id : Z;
  row_source : jsstring;
  row_original_name : jsval;
  row_normalized_name : jsval;
  row_email : jsval;
  row_phone : jsval
}.

(** One round of [for (let j = i + 1; ...)], dedupe.js lines 340-347, on
    the row [rows[j]]; [leader] is [rows[i]]. *)
Definition tryGroup (leader : FuzzyRow) (acc : list FuzzyRow * gset Z)
    (row : FuzzyRow) : list FuzzyRow * gset Z :=
  let '(group, processedIds) := acc in
  if bool_decide (row_id row ∈ processedIds) then acc
  else if areNamesSimilar (row_normalized_name leader)
            (row_normalized_name row) (7 # 10)
       then (group ++ [row], {[row_id row]} ∪ processedIds)
       else acc.

(** One round of the main loop, dedupe.js lines 333-350.  The key
    [group_${i}] of the [Map] is modelled by [i]. *)
Definition groupStep (rows : list FuzzyRow)
    (st : gmap nat (list FuzzyRow) * gset Z) (i : nat)
  : gmap nat (list FuzzyRow) * gset Z :=
  let '(groups, processedIds) := st in
  match rows !! i with
  | None => st
  | Some leader =>
      if bool_decide (row_id leader ∈ processedIds) then st
      else
        let '(group, processedIds) :=
          foldl (tryGroup leader)
            ([leader], {[row_id leader]} ∪ processedIds)
            (drop (S i) rows) in
        (<[i := group]> groups, processedIds)
  end.

(** The callback of [performFuzzyMatching] on the rows of the query: the
    groups it resolves with, dedupe.js lines 329-352. *)
Definition performFuzzyMatching (rows : list FuzzyRow)
  : gmap nat (list FuzzyRow) :=
  fst (foldl (groupStep rows) (∅, ∅) (seq 0 (length rows))).

Definition mkRow (id : Z) (name : string) : FuzzyRow :=
  {| row_id := id; row_source := js "linkedin";
     row_original_name := str name;
     row_normalized_name := normalizeName (str name);
     row_email := None; row_phone := None |}.

(** Four rows of three persons. *)
Definition fuzzy_rows : list FuzzyRow :=
  [mkRow 1 "John Smith"; mkRow 2 "Amy Wong"; mkRow 3 "John Smyth";
   mkRow 4 "Li"].

(** The state of the main loop of [performFuzzyMatching] after the rounds
    [0 .. k - 1]. *)
Record GroupInv (rows : list FuzzyRow) (k : nat)
    (st : gmap nat (list FuzzyRow) * gset Z) : Prop := {
  ginv_ids : forall x,
    x ∈ st.2 <-> x ∈ row_id <$> concat ((map_to_list st.1).*2);
  ginv_nodup : NoDup (row_id <$> concat ((map_to_list st.1).*2));
  ginv_rows : forall r, r ∈ concat ((map_to_list st.1).*2) -> r ∈ rows;
  ginv_done : forall r, r ∈ take k rows -> row_id r ∈ st.2;
  ginv_group : forall i group,
    st.1 !! i = Some group ->
    i < k
    /\ exists leader members,
         rows !! i = Some leader /\ group = leader :: members
         /\ Forall (fun r =>
                      areNamesSimilar (row_normalized_name leader)
                        (row_normalized_name r) (7 # 10) = true) members
}.

(** * Properties *)

(** ** The model on sample inputs *)

Example normalizeName_ex1 :
  normalizeName (Some (js "  Dr. John   O'Neil-3 ")) = Some (js "dr john o neil").
Proof. vm_compute. reflexivity. Qed.

Example extractPhone_ex1 :
  extractPhone (Some (js "+91-98765-43210")) = Some (js "919876543210").
Proof. vm_compute. reflexivity. Qed.

Example levenshtein_kitten :
  levenshteinDistance (js "kitten") (js "sitting") = 3.
Proof. vm_compute. reflexivity. Qed.

Example similar_smith_smyth :
  areNamesSimilar (Some (js "smith")) (Some (js "smyth")) (7 # 10) = true.
Proof. vm_compute. reflexivity. Qed.

(** ** Phone canonicalization *)

Lemma substring_prefix (s : jsstring) (n : nat) : substring s 0 n = take n s.
Proof. unfold substring. simpl. by rewrite Nat.sub_0_r. Qed.

Lemma substring_suffix (s : jsstring) (a : nat) :
  a <= length s -> substring s a (length s) = drop a s.
Proof.
  intros Ha. unfold substring.
  rewrite Nat.min_l, Nat.max_r by lia.
  apply take_ge. rewrite length_drop. lia.
Qed.

(** C7: for every input string [extractPhone] follows the rule of the
    specification (null under 10 digits, the first 12 digits of a 91...
    number of 12 digits or more, the last 10 digits otherwise), and the
    three sample numbers come out as the specification lists them. *)
Theorem extractPhone_canonical :
  (forall text : jsstring, extractPhone (Some text) = extractPhone_spec text)
  /\ extractPhone (Some (js "+91-98765-43210")) = Some (js "919876543210")
  /\ extractPhone (Some (js "(212) 555-0100")) = Some (js "2125550100")
  /\ extractPhone (Some (js "12345")) = None.
Proof.
  split; [| by vm_compute].
  intros text. unfold extractPhone, extractPhone_spec.
  destruct text as [| c text]; [reflexivity |].
  change (default [] (Some (c :: text))) with (c :: text).
  cbn [truthy negb].
  set (cleaned := List.filter is_digit (c :: text)).
  destruct (Nat.leb_spec 10 (length cleaned)) as [Hge | Hlt].
  - replace (length cleaned <? 10) with false
      by (symmetry; apply Nat.ltb_ge; lia).
    destruct (startsWith cleaned (js "91") && (12 <=? length cleaned)).
    + by rewrite substring_prefix.
    + rewrite substring_suffix by lia. reflexivity.
  - replace (length cleaned <? 10) with true
      by (symmetry; apply Nat.ltb_lt; lia).
    reflexivity.
Qed.

(** ** The threshold example of the similarity metric *)

(** C4 as the specification states it fails: at threshold 0.95 the two
    names are still similar, and the coefficient is not 0.8. *)
Lemma abhijit_threshold_counterexample :
  ~ (areNamesSimilar name_abhijit name_cg_abhijit (7 # 10) = true
     /\ wordSimilarity (significantWords (js "abhijit hazari"))
          (significantWords (js "cg abhijit hazari")) == 8 # 10
     /\ areNamesSimilar name_abhijit name_cg_abhijit (95 # 100) = false).
Proof. intros (_ & _ & H). vm_compute in H. discriminate H. Qed.

(** C4, amended: the word "cg" is no longer than 2 and is dropped, so both
    names have the two significant words abhijit and hazari; the
    coefficient is 2*2/(2+2) = 1, and the names are similar at threshold
    0.7 and at threshold 0.95 alike. *)
Theorem abhijit_threshold :
  significantWords (js "cg abhijit hazari") = [js "abhijit"; js "hazari"]
  /\ areNamesSimilar name_abhijit name_cg_abhijit (7 # 10) = true
  /\ wordSimilarity (significantWords (js "abhijit hazari"))
       (significantWords (js "cg abhijit hazari")) == 1
  /\ areNamesSimilar name_abhijit name_cg_abhijit (95 # 100) = true.
Proof. repeat split; vm_compute; reflexivity. Qed.

(** ** Name normalization *)

Ltac units_to_prop :=
  unfold is_letter, is_upper, is_lower, is_space, is_digit, SPACE in *;
  rewrite ?orb_true_iff, ?andb_true_iff, ?N.leb_le, ?N.eqb_eq in *.

Lemma lower_not_space c : is_lower c = true -> is_space c = false.
Proof.
  intros H. apply not_true_iff_false. intros Hs. units_to_prop. lia.
Qed.

Lemma lower_not_upper c : is_lower c = true -> is_upper c = false.
Proof.
  intros H. apply not_true_iff_false. intros Hs. units_to_prop. lia.
Qed.

Lemma space_not_upper c : is_space c = true -> is_upper c = false.
Proof.
  intros H. apply not_true_iff_false. intros Hs. units_to_prop. lia.
Qed.

Lemma upper_lowered c : is_upper c = true -> is_lower (c + 32) = true.
Proof. intros H. units_to_prop. lia. Qed.

(** After the replacement and the lowering a string holds lower-case
    letters and white space only. *)
Lemma lowered_unit c :
  let c' := lower_unit (if is_letter c || is_space c then c else SPACE) in
  is_lower c' = true \/ is_space c' = true.
Proof.
  unfold lower_unit. cbv zeta.
  destruct (is_letter c) eqn:Hl; cbn [orb].
  - destruct (is_upper c) eqn:Hu.
    + left. by apply upper_lowered.
    + left. unfold is_letter in Hl. rewrite Hu in Hl. exact Hl.
  - destruct (is_space c) eqn:Hs.
    + rewrite (space_not_upper _ Hs). by right.
    + right. reflexivity.
Qed.

Lemma lowered_letter c :
  is_letter c = true ->
  is_lower (lower_unit (if is_letter c || is_space c then c else SPACE)) = true.
Proof.
  intros Hl. rewrite Hl. cbn [orb]. unfold lower_unit.
  destruct (is_upper c) eqn:Hu.
  - by apply upper_lowered.
  - unfold is_letter in Hl. rewrite Hu in Hl. exact Hl.
Qed.

Lemma split_ws_nonnil s : split_ws s <> [].
Proof.
  induction s as [| c s IH]; cbn; [done |].
  destruct (is_space c).
  - destruct s as [| c' s']; [done |]. by destruct (is_space c').
  - by destruct (split_ws s).
Qed.

Lemma concat_split_ws s :
  concat (split_ws s) = List.filter (fun c => negb (is_space c)) s.
Proof.
  induction s as [| c s IH]; [reflexivity |].
  cbn [split_ws List.filter].
  destruct (is_space c); cbn [negb].
  - rewrite <- IH. destruct s as [| c' s']; [reflexivity |].
    by destruct (is_space c').
  - rewrite <- IH. pose proof (split_ws_nonnil s).
    by destruct (split_ws s).
Qed.

Lemma concat_filter_nonempty (l : list jsstring) :
  concat (List.filter nonempty l) = concat l.
Proof.
  induction l as [| p l IH]; [reflexivity |].
  cbn. destruct p; cbn; [exact IH | by rewrite IH].
Qed.

Lemma normalizeChain_tokens name :
  normalizeChain name = trim (join_sp (tokens name)).
Proof. reflexivity. Qed.

Lemma concat_tokens name :
  concat (tokens name)
  = List.filter (fun c => negb (is_space c))
      (toLowerCase (replace_non_letters name)).
Proof. unfold tokens. by rewrite concat_filter_nonempty, concat_split_ws. Qed.

Lemma tokens_canon name : canon (tokens name).
Proof.
  apply List.Forall_forall. intros w Hw. split.
  - apply filter_In in Hw as [_ Hw].
    destruct w; [discriminate Hw | done].
  - apply List.Forall_forall. intros c Hc.
    assert (Hin : In c (concat (tokens name))).
    { apply in_concat. eauto. }
    rewrite concat_tokens in Hin.
    apply filter_In in Hin as [Hin Hns].
    unfold toLowerCase, replace_non_letters in Hin.
    rewrite List.map_map in Hin. apply in_map_iff in Hin as (c0 & <- & _).
    destruct (lowered_unit c0) as [Hl | Hs]; [exact Hl |].
    cbv zeta in Hs. rewrite Hs in Hns. discriminate Hns.
Qed.

Lemma join_sp_cons w ws :
  ws <> [] -> join_sp (w :: ws) = w ++ SPACE :: join_sp ws.
Proof. by destruct ws. Qed.

Lemma join_sp_plain ws : canon ws -> plain (join_sp ws).
Proof.
  unfold canon, plain. induction 1 as [| w ws [_ Hw] Hws IH]; [constructor |].
  assert (Hpw : Forall (fun c => is_lower c = true \/ c = SPACE) w).
  { eapply List.Forall_impl; [| exact Hw]. cbv beta. auto. }
  destruct ws as [| w' ws']; [exact Hpw |].
  rewrite join_sp_cons by done.
  apply Forall_app. split; [exact Hpw |].
  constructor; [by right | exact IH].
Qed.

Lemma replace_non_letters_plain s : plain s -> replace_non_letters s = s.
Proof.
  unfold plain. induction 1 as [| c s Hc Hs IH]; [reflexivity |].
  cbn. fold (replace_non_letters s). rewrite IH. f_equal.
  destruct Hc as [Hc | ->]; [| reflexivity].
  unfold is_letter. rewrite Hc. by rewrite orb_true_r.
Qed.

Lemma toLowerCase_plain s : plain s -> toLowerCase s = s.
Proof.
  unfold plain. induction 1 as [| c s Hc Hs IH]; [reflexivity |].
  cbn. fold (toLowerCase s). rewrite IH. f_equal. unfold lower_unit.
  destruct Hc as [Hc | ->]; [| reflexivity].
  by rewrite (lower_not_upper _ Hc).
Qed.

Lemma canon_spaceless w :
  Forall (fun c => is_lower c = true) w -> spaceless w.
Proof.
  intros H. eapply List.Forall_impl; [| exact H].
  intros c. apply lower_not_space.
Qed.

Lemma split_ws_word w : spaceless w -> split_ws w = [w].
Proof.
  induction 1 as [| c w Hc Hw IH]; [reflexivity |].
  cbn. by rewrite Hc, IH.
Qed.

Lemma split_ws_word_then w c rest :
  spaceless w -> is_space c = false ->
  split_ws (w ++ SPACE :: c :: rest) = w :: split_ws (c :: rest).
Proof.
  intros Hw Hc. induction Hw as [| d w Hd Hw IH].
  - cbn [app]. cbn [split_ws].
    change (is_space SPACE) with true. cbv iota. by rewrite Hc.
  - cbn [app]. cbn [split_ws]. rewrite Hd. fold split_ws.
    by rewrite IH.
Qed.

Lemma join_sp_head w ws :
  w <> [] -> exists c rest, join_sp (w :: ws) = c :: rest /\ head w = Some c.
Proof.
  intros Hw. destruct w as [| c w]; [done |].
  destruct ws; cbn; eauto.
Qed.

Lemma split_ws_join ws : canon ws -> ws <> [] -> split_ws (join_sp ws) = ws.
Proof.
  unfold canon. induction 1 as [| w ws [Hne Hw] Hws IH]; [done |].
  intros _. destruct ws as [| w' ws'].
  - cbn. by apply split_ws_word, canon_spaceless.
  - rewrite join_sp_cons by done.
    apply Forall_cons_1 in Hws as Hw'. destruct Hw' as [[Hne' Hw'] _].
    destruct (join_sp_head w' ws' Hne') as (c & rest & Heq & Hc).
    rewrite Heq. rewrite split_ws_word_then.
    + rewrite <- Heq. by rewrite IH.
    + by apply canon_spaceless.
    + destruct w' as [| c' w']; [done |]. injection Hc as ->.
      apply lower_not_space. by apply Forall_cons_1 in Hw' as [? _].
Qed.

Lemma filter_nonempty_canon ws : canon ws -> List.filter nonempty ws = ws.
Proof.
  unfold canon. induction 1 as [| w ws [Hne _] _ IH]; [reflexivity |].
  cbn. rewrite IH. by destruct w.
Qed.

Lemma trim_start_id s : head_ok s -> trim_start s = s.
Proof. destruct s as [| c s]; cbn; [done |]. by intros ->. Qed.

Lemma trim_id s : head_ok s -> head_ok (rev s) -> trim s = s.
Proof.
  intros H1 H2. unfold trim.
  by rewrite (trim_start_id s), (trim_start_id (rev s)), rev_involutive.
Qed.

Lemma spaceless_head_ok s : spaceless s -> head_ok s.
Proof. by destruct 1. Qed.

Lemma head_ok_app s t : s <> [] -> head_ok s -> head_ok (s ++ t).
Proof. by destruct s. Qed.

Lemma join_sp_nonnil w ws : w <> [] -> join_sp (w :: ws) <> [].
Proof. intros Hw. destruct w; [done |]. by destruct ws. Qed.

Lemma join_sp_ends ws :
  canon ws -> head_ok (join_sp ws) /\ head_ok (rev (join_sp ws)).
Proof.
  unfold canon. induction 1 as [| w ws [Hne Hw] Hws [_ IH]]; [done |].
  split.
  - destruct (join_sp_head w ws Hne) as (c & rest & -> & Hc).
    destruct w as [| c' w]; [done |]. injection Hc as ->.
    apply lower_not_space. by apply Forall_cons_1 in Hw as [? _].
  - destruct ws as [| w' ws'].
    + cbn [join_sp]. apply spaceless_head_ok, Forall_rev.
      by apply canon_spaceless.
    + rewrite join_sp_cons by done.
      rewrite rev_app_distr. cbn [rev]. rewrite <- !app_assoc.
      apply head_ok_app; [| exact IH].
      apply Forall_cons_1 in Hws as [[Hne' _] _].
      intros Hnil. apply (join_sp_nonnil w' ws' Hne').
      by rewrite <- (rev_involutive (join_sp _)), Hnil.
Qed.

Lemma trim_join_sp ws : canon ws -> trim (join_sp ws) = join_sp ws.
Proof. intros H. destruct (join_sp_ends ws H). by apply trim_id. Qed.

(** Normalizing a string that is already a normalized name changes
    nothing. *)
Lemma normalizeChain_join ws :
  canon ws -> normalizeChain (join_sp ws) = join_sp ws.
Proof.
  intros Hc. rewrite normalizeChain_tokens. unfold tokens.
  rewrite (replace_non_letters_plain _ (join_sp_plain _ Hc)).
  rewrite (toLowerCase_plain _ (join_sp_plain _ Hc)).
  destruct ws as [| w ws]; [reflexivity |].
  rewrite split_ws_join by done.
  rewrite filter_nonempty_canon by done.
  by apply trim_join_sp.
Qed.

Lemma normalizeChain_canon name : normalizeChain name = join_sp (tokens name).
Proof.
  rewrite normalizeChain_tokens. apply trim_join_sp, tokens_canon.
Qed.

Lemma normalizeChain_idempotent name :
  normalizeChain (normalizeChain name) = normalizeChain name.
Proof.
  rewrite (normalizeChain_canon name). apply normalizeChain_join, tokens_canon.
Qed.

(** A name without ASCII letters normalizes to the empty string. *)
Lemma normalizeChain_no_letters name :
  existsb is_letter name = false -> normalizeChain name = [].
Proof.
  intros Hno. rewrite normalizeChain_canon.
  assert (Hnil : concat (tokens name) = []).
  { rewrite concat_tokens. unfold toLowerCase, replace_non_letters.
    rewrite List.map_map.
    induction name as [| c name IH]; [reflexivity |].
    cbn in Hno. apply orb_false_iff in Hno as [Hc Hn].
    cbn. rewrite Hc. cbn [orb].
    rewrite (IH Hn).
    destruct (is_space c) eqn:Hs.
    - unfold lower_unit. by rewrite (space_not_upper _ Hs), Hs.
    - reflexivity. }
  pose proof (tokens_canon name) as Hcanon.
  destruct (tokens name) as [| w ws]; [reflexivity |].
  apply Forall_cons_1 in Hcanon as [[Hne _] _].
  cbn in Hnil. by destruct w.
Qed.

(** A name with an ASCII letter normalizes to a string that is not
    empty. *)
Lemma normalizeChain_letters name :
  existsb is_letter name = true -> normalizeChain name <> [].
Proof.
  intros Hex. rewrite normalizeChain_canon.
  assert (Hcat : concat (tokens name) <> []).
  { rewrite concat_tokens. unfold toLowerCase, replace_non_letters.
    rewrite List.map_map.
    apply existsb_exists in Hex as (c & Hin & Hc).
    intros Hnil.
    assert (Hin' : In (lower_unit (if is_letter c || is_space c then c else SPACE))
                     (List.filter (fun c => negb (is_space c))
                        (List.map (fun x => lower_unit
                           (if is_letter x || is_space x then x else SPACE)) name))).
    { apply filter_In. split.
      - apply in_map_iff. eauto.
      - by rewrite (lower_not_space _ (lowered_letter c Hc)). }
    rewrite Hnil in Hin'. destruct Hin'. }
  pose proof (tokens_canon name) as Hcanon.
  destruct (tokens name) as [| w ws]; [done |].
  apply Forall_cons_1 in Hcanon as [[Hne _] _].
  by apply join_sp_nonnil.
Qed.

(** C6 as the specification states it fails: the digits-only name "123" is
    not empty and has no ASCII letter, and [normalizeName] returns the empty
    string for it, not [null]. *)
Lemma normalizeName_null_counterexample :
  existsb is_letter (js "123") = false
  /\ normalizeName (Some (js "123")) = Some []
  /\ normalizeName (Some (js "123")) <> None.
Proof. split; [| split]; by vm_compute. Qed.

(** C6, amended: [normalizeName] returns [null] for the absent and the
    empty input, and only for those; for an input that is not empty and
    has no ASCII letter it returns the empty string. *)
Theorem normalizeName_null_or_empty (name : jsval) :
  (truthy name = false -> normalizeName name = None)
  /\ (truthy name = true -> normalizeName name <> None)
  /\ (truthy name = true -> existsb is_letter (default [] name) = false ->
      normalizeName name = Some []).
Proof.
  destruct name as [[| c s] |]; cbn [truthy normalizeName];
    repeat split; try done.
  intros _ Hno. f_equal. by apply normalizeChain_no_letters.
Qed.

Lemma normalizeName_null_or_empty_witness :
  normalizeName (Some (js "+1 (212)")) <> None
  /\ normalizeName (Some (js "+1 (212)")) = Some []
  /\ normalizeName (Some []) = None.
Proof.
  destruct (normalizeName_null_or_empty (Some (js "+1 (212)")))
    as (_ & H2 & H3).
  destruct (normalizeName_null_or_empty (Some [])) as (H1 & _ & _).
  split; [apply H2; reflexivity |].
  split; [apply H3; reflexivity | apply H1; reflexivity].
Defined.

(** C5 as the specification states it fails: "123" normalizes to the empty
    string, and the empty string normalizes to [null]. *)
Lemma normalizeName_idempotent_counterexample :
  normalizeName (normalizeName (Some (js "123")))
  <> normalizeName (Some (js "123")).
Proof. by vm_compute. Qed.

(** C5, amended: [normalizeName (normalizeName x) = normalizeName x] for
    every [x] that is absent, empty, or holds at least one ASCII letter. *)
Theorem normalizeName_idempotent (x : jsval) :
  truthy x = false \/ existsb is_letter (default [] x) = true ->
  normalizeName (normalizeName x) = normalizeName x.
Proof.
  destruct x as [[| c s] |]; [reflexivity | | reflexivity].
  intros [Hf | Hl]; [discriminate Hf |].
  change (default [] (Some (c :: s))) with (c :: s) in Hl.
  cbn [normalizeName].
  pose proof (normalizeChain_letters _ Hl) as Hne.
  destruct (normalizeChain (c :: s)) as [| d t] eqn:Heq; [done |].
  cbn [normalizeName]. rewrite <- Heq.
  by rewrite normalizeChain_idempotent.
Qed.

Lemma normalizeName_idempotent_witness :
  normalizeName (normalizeName (Some (js " Dr. John  O'Neil ")))
  = normalizeName (Some (js " Dr. John  O'Neil ")).
Proof. apply normalizeName_idempotent. right. reflexivity. Defined.

(** ** The inverted-index merge pass *)

Lemma tryMerge_cases contacts i cn current st j :
  tryMerge contacts i cn (current, st) j = (current, st)
  \/ exists candidate,
       (j ∉ processed st)
       /\ contacts !! j = Some candidate
       /\ conflicting (email current) (email candidate) = false
       /\ conflicting (phone current) (phone candidate) = false
       /\ truthy (getNameForComparison candidate) = true
       /\ areNamesSimilar cn
            (normalizeName (getNameForComparison candidate)) (7 # 10) = true
       /\ tryMerge contacts i cn (current, st) j
          = (absorb current candidate, recordMerge i j st).
Proof.
  unfold tryMerge.
  destruct (bool_decide (j ∈ processed st)) eqn:Hj; [by left |].
  apply bool_decide_eq_false in Hj.
  destruct (contacts !! j) as [candidate |] eqn:Hc; [| by left].
  destruct (conflicting (email current) (email candidate)) eqn:He; [by left |].
  destruct (conflicting (phone current) (phone candidate)) eqn:Hp; [by left |].
  destruct (truthy (getNameForComparison candidate)) eqn:Ht; [| by left].
  destruct (areNamesSimilar cn _ (7 # 10)) eqn:Hs; [| by left].
  right. exists candidate. cbn [andb]. done.
Qed.

(** What the loop over the candidate set leaves behind. *)
Lemma candidate_loop contacts i cn candidates :
  forall current0 st0 current st,
    foldl (tryMerge contacts i cn) (current0, st0) candidates = (current, st) ->
    exists js,
      merged st = merged st0
      /\ origins st = origins st0
      /\ mergeLog st = mergeLog st0 ++ ((pair i) <$> js)
      /\ mergeCount st = mergeCount st0 + length js
      /\ (forall x, x ∈ processed st <-> x ∈ js \/ x ∈ processed st0)
      /\ NoDup js
      /\ (forall j, j ∈ js -> (j ∉ processed st0) /\ (j ∈ candidates))
      /\ current = foldAbsorb contacts current0 js
      /\ validFold contacts cn current0 js.
Proof.
  induction candidates as [| j candidates IH]; intros current0 st0 current st.
  - cbn. intros [= <- <-]. exists []. cbn.
    rewrite app_nil_r, Nat.add_0_r.
    split_and!; try done.
    + intros x. split; [by right |].
      intros [Hx | Hx]; [by apply elem_of_nil in Hx | done].
    + constructor.
    + intros j Hj. by apply elem_of_nil in Hj.
  - cbn [foldl].
    destruct (tryMerge_cases contacts i cn current0 st0 j)
      as [-> | (candidate & Hj & Hc & He & Hp & Ht & Hs & ->)].
    + intros Hrun. destruct (IH _ _ _ _ Hrun)
        as (js & ? & ? & ? & ? & ? & ? & Hin & ? & ?).
      exists js. split_and!; try done.
      intros j' Hj'. destruct (Hin j' Hj'). split; [done |].
      apply elem_of_cons. by right.
    + intros Hrun. destruct (IH _ _ _ _ Hrun)
        as (js & Hm & Ho & Hl & Hn & Hpr & Hnd & Hin & Hcur & Hv).
      exists (j :: js). cbn in Hm, Ho, Hl, Hn, Hpr, Hin.
      split_and!.
      * done.
      * done.
      * rewrite Hl, <- app_assoc. reflexivity.
      * rewrite Hn. cbn. lia.
      * intros x. rewrite Hpr. set_solver.
      * constructor; [| done]. intros Hjin. apply Hin in Hjin. set_solver.
      * intros j' Hj'. apply elem_of_cons in Hj' as [-> | Hj'].
        { split; [done | by left]. }
        destruct (Hin j' Hj') as [Hnp Hc']. split; [set_solver |].
        apply elem_of_cons. by right.
      * rewrite Hcur. unfold foldAbsorb. cbn [foldl]. by rewrite Hc.
      * cbn [validFold]. exists candidate. done.
Qed.

Lemma foldl_invariant {A B} (P : A -> Prop) (f : A -> B -> A) (l : list B) :
  forall a, P a -> (forall a x, x ∈ l -> P a -> P (f a x)) -> P (foldl f a l).
Proof.
  induction l as [| x l IH]; intros a Ha Hstep; [exact Ha |].
  cbn. apply IH.
  - apply Hstep; [by left | exact Ha].
  - intros a' x' Hx'. apply Hstep. by right.
Qed.

Lemma indexContact_sound contacts nameIndex index contact :
  contacts !! index = Some contact ->
  indexSound contacts nameIndex ->
  indexSound contacts (indexContact nameIndex index contact).
Proof.
  intros Hc Hsound. unfold indexContact.
  destruct (truthy (getNameForComparison contact)); [| exact Hsound].
  apply foldl_invariant; [exact Hsound |].
  intros idx word Hword Hidx word' entries entry Hlook Hin.
  destruct (decide (word = word')) as [<- | Hne].
  - rewrite lookup_insert_eq in Hlook. injection Hlook as <-.
    apply elem_of_app in Hin as [Hin | Hin].
    + destruct (idx !! word) as [old |] eqn:Hold.
      * by apply (Hidx word old).
      * by apply elem_of_nil in Hin.
    + apply list_elem_of_singleton in Hin as ->. cbn.
      exists contact. split; [exact Hc | exact Hword].
  - rewrite lookup_insert_ne in Hlook by done. by apply (Hidx word' entries).
Qed.

Lemma buildIndexFrom_sound contacts rest :
  forall nameIndex index before,
    contacts = before ++ rest -> length before = index ->
    indexSound contacts nameIndex ->
    indexSound contacts (buildIndexFrom nameIndex index rest).
Proof.
  induction rest as [| contact rest IH]; intros nameIndex index before Heq Hlen Hs.
  - exact Hs.
  - cbn. apply (IH _ _ (before ++ [contact])).
    + by rewrite <- app_assoc.
    + rewrite length_app. cbn. lia.
    + apply indexContact_sound; [| exact Hs].
      rewrite Heq, lookup_app_r by lia.
      by replace (index - length before) with 0 by lia.
Qed.

Lemma buildIndex_sound contacts : indexSound contacts (buildIndex contacts).
Proof.
  apply (buildIndexFrom_sound contacts contacts ∅ 0 []); done.
Qed.

Lemma elem_of_setAdd x y s : x ∈ setAdd y s -> x = y \/ x ∈ s.
Proof.
  unfold setAdd. destruct (bool_decide (y ∈ s)); [by right |].
  intros Hin. apply elem_of_app in Hin as [Hin | Hin]; [by right |].
  apply list_elem_of_singleton in Hin. by left.
Qed.

(** A member of the candidate set sits in the posting list of one of the
    words it was collected for. *)
Lemma collectCandidates_sound nameIndex i done words j :
  j ∈ collectCandidates nameIndex i done words ->
  exists word entries entry,
    word ∈ words /\ nameIndex !! word = Some entries
    /\ entry ∈ entries /\ e_index entry = j.
Proof.
  unfold collectCandidates. revert j.
  apply (foldl_invariant
    (fun candidates => forall j, j ∈ candidates -> exists word entries entry,
       word ∈ words /\ nameIndex !! word = Some entries
       /\ entry ∈ entries /\ e_index entry = j)).
  - intros j Hj. by apply elem_of_nil in Hj.
  - intros candidates word Hword Hcand.
    destruct (nameIndex !! word) as [entries |] eqn:Hlook; [| exact Hcand].
    apply foldl_invariant; [exact Hcand |].
    intros candidates' entry Hentry Hcand' j Hj.
    destruct (bool_decide (e_index entry ≠ i)
              && bool_decide (e_index entry ∉ done)); [| by apply Hcand'].
    apply elem_of_setAdd in Hj as [-> | Hj]; [| by apply Hcand'].
    exists word, entries, entry. done.
Qed.

(** What one round of the main loop does. *)
Lemma processContact_cases contacts nameIndex st i :
  (processContact contacts nameIndex st i = st
   /\ (i ∈ processed st \/ contacts !! i = None))
  \/ exists current0 js,
       let st' := processContact contacts nameIndex st i in
       (i ∉ processed st)
       /\ contacts !! i = Some current0
       /\ merged st' = merged st ++ [foldAbsorb contacts current0 js]
       /\ origins st' = origins st ++ [i]
       /\ mergeLog st' = mergeLog st ++ ((pair i) <$> js)
       /\ mergeCount st' = mergeCount st + length js
       /\ (forall x, x ∈ processed st' <-> x = i \/ x ∈ js \/ x ∈ processed st)
       /\ NoDup js
       /\ (forall j, j ∈ js ->
             j <> i /\ (j ∉ processed st)
             /\ exists done,
                  j ∈ collectCandidates nameIndex i done (wordsOf current0))
       /\ validFold contacts
            (normalizeName (getNameForComparison current0)) current0 js.
Proof.
  unfold processContact.
  destruct (bool_decide (i ∈ processed st)) eqn:Hi.
  { left. apply bool_decide_eq_true in Hi. auto. }
  apply bool_decide_eq_false in Hi.
  destruct (contacts !! i) as [current0 |] eqn:Hc; [| left; auto].
  right. exists current0.
  destruct (truthy (getNameForComparison current0)) eqn:Ht; cbn [negb].
  - destruct (foldl _ _ _) as [current st'] eqn:Hrun.
    apply candidate_loop in Hrun
      as (js & Hm & Ho & Hl & Hn & Hpr & Hnd & Hin & Hcur & Hv).
    exists js. cbn in *. split_and!; try done.
    + by rewrite Hm, Hcur.
    + by rewrite Ho.
    + intros x. rewrite Hpr. set_solver.
    + intros j Hj. destruct (Hin j Hj) as [Hnp Hcand]. split_and!.
      * set_solver.
      * set_solver.
      * eexists. exact Hcand.
  - exists []. cbn. rewrite app_nil_r, Nat.add_0_r. split_and!; try done.
    + intros x. set_solver.
    + constructor.
    + intros j Hj. by apply elem_of_nil in Hj.
Qed.

Lemma absorbedBy_app i log1 log2 :
  absorbedBy i (log1 ++ log2) = absorbedBy i log1 ++ absorbedBy i log2.
Proof. unfold absorbedBy. by rewrite filter_app, fmap_app. Qed.

Lemma absorbedBy_cons i i' j log :
  absorbedBy i ((i', j) :: log)
  = if decide (i' = i) then j :: absorbedBy i log else absorbedBy i log.
Proof.
  unfold absorbedBy. destruct (decide (i' = i)) as [Heq | Hne].
  - by rewrite filter_cons_True.
  - by rewrite filter_cons_False.
Qed.

Lemma absorbedBy_pair_same i js : absorbedBy i ((pair i) <$> js) = js.
Proof.
  induction js as [| j js IH]; [reflexivity |].
  cbn [fmap list_fmap]. rewrite absorbedBy_cons.
  destruct (decide (i = i)); [| done]. f_equal. exact IH.
Qed.

Lemma absorbedBy_pair_other i i' js :
  i <> i' -> absorbedBy i ((pair i') <$> js) = [].
Proof.
  intros Hne. induction js as [| j js IH]; [reflexivity |].
  cbn [fmap list_fmap]. rewrite absorbedBy_cons.
  destruct (decide (i' = i)); [congruence | exact IH].
Qed.

Lemma elem_of_absorbedBy i j log : j ∈ absorbedBy i log <-> (i, j) ∈ log.
Proof.
  induction log as [| [i' j'] log IH].
  - split; intros H; by apply elem_of_nil in H.
  - rewrite absorbedBy_cons. destruct (decide (i' = i)) as [-> | Hne].
    + rewrite !elem_of_cons, IH. split; intros [H | H]; auto; left; congruence.
    + rewrite elem_of_cons, IH. split; [auto |].
      intros [H | H]; [congruence | done].
Qed.

Lemma absorbedBy_none i log :
  (forall j, (i, j) ∉ log) -> absorbedBy i log = [].
Proof.
  intros Hno. destruct (absorbedBy i log) as [| j js] eqn:Heq; [done |].
  exfalso. apply (Hno j), elem_of_absorbedBy. rewrite Heq. by left.
Qed.

Lemma snd_pair_fmap (i : nat) (js : list nat) : snd <$> ((pair i) <$> js) = js.
Proof. induction js as [| j js IH]; [done |]. cbn. by rewrite IH. Qed.

Lemma validFold_member contacts cn js :
  forall current j,
    validFold contacts cn current js -> j ∈ js ->
    exists candidate,
      contacts !! j = Some candidate
      /\ truthy (getNameForComparison candidate) = true
      /\ areNamesSimilar cn
           (normalizeName (getNameForComparison candidate)) (7 # 10) = true.
Proof.
  induction js as [| j' js IH]; intros current j Hv Hj.
  - by apply elem_of_nil in Hj.
  - destruct Hv as (candidate & Hc & _ & _ & Ht & Hs & Hv).
    apply elem_of_cons in Hj as [-> | Hj]; [by exists candidate |].
    by apply (IH (absorb current candidate)).
Qed.

Lemma PassInv_init contacts : PassInv contacts 0 initState.
Proof.
  split; cbn; try done.
  - intros x. split; [intros Hx | intros [Hx | Hx]]; set_solver.
  - intros x Hx. lia.
  - constructor.
  - intros i j Hin. by apply elem_of_nil in Hin.
Qed.

Lemma PassInv_step contacts nameIndex k st :
  indexSound contacts nameIndex -> k < length contacts ->
  PassInv contacts k st ->
  PassInv contacts (S k) (processContact contacts nameIndex st k).
Proof.
  intros Hidx Hk Hinv.
  destruct (processContact_cases contacts nameIndex st k)
    as [[-> Hskip] | (current0 & js & Hstep)].
  - assert (Hin : k ∈ processed st).
    { destruct Hskip as [| Hnone]; [done |].
      apply lookup_ge_None in Hnone. lia. }
    destruct Hinv. split; try done.
    intros x Hx. destruct (decide (x = k)) as [-> |]; [done |].
    apply inv_done0. lia.
  - cbv zeta in Hstep.
    destruct Hstep as (Hnp & Hc & Hm & Ho & Hl & Hn & Hpr & Hnd & Hin & Hv).
    destruct Hinv as [Ilen Icnt Iproc Idone Ibound Inodup Ilog Igroup].
    assert (Hk_orig : k ∉ origins st).
    { intros H. apply Hnp, Iproc. by left. }
    assert (Hk_log : forall j, (k, j) ∉ mergeLog st).
    { intros j H. by apply Ilog in H as [H _]. }
    split.
    + rewrite Hm, Ho, !length_app. cbn. lia.
    + rewrite Hn, Hl, length_app, length_fmap. lia.
    + intros x.
      rewrite Hpr, Ho, Hl, fmap_app, snd_pair_fmap, !elem_of_app, Iproc,
        list_elem_of_singleton.
      tauto.
    + intros x Hx. apply Hpr.
      destruct (decide (x = k)); [by left |]. right. right. apply Idone. lia.
    + intros x Hx. apply Hpr in Hx as [-> | [Hx | Hx]]; [done | | by apply Ibound].
      destruct (validFold_member _ _ _ _ _ Hv Hx) as (candidate & Hcand & _).
      by apply lookup_lt_Some in Hcand.
    + rewrite Ho, Hl, fmap_app, snd_pair_fmap.
      apply NoDup_app in Inodup as (Hno & Hdisj & Hnl).
      assert (Hfresh : forall x, x ∈ js -> (x ∉ origins st) /\ (x ∉ snd <$> mergeLog st)).
      { intros x Hx. destruct (Hin x Hx) as (_ & Hxp & _).
        split; intros Hx'; apply Hxp, Iproc; auto. }
      assert (Hk_snd : k ∉ snd <$> mergeLog st).
      { intros H. apply Hnp, Iproc. by right. }
      rewrite !NoDup_app. split_and!.
      * done.
      * intros x Hx Hx'. apply list_elem_of_singleton in Hx' as ->. done.
      * apply NoDup_singleton.
      * intros x Hx Hx'. apply elem_of_app in Hx as [Hx | Hx].
        -- apply elem_of_app in Hx' as [Hx' | Hx'].
           ++ by apply (Hdisj x).
           ++ by destruct (Hfresh x Hx').
        -- apply list_elem_of_singleton in Hx as ->.
           apply elem_of_app in Hx' as [Hx' | Hx']; [done |].
           by destruct (Hin k Hx') as (Hne & _).
      * done.
      * intros x Hx Hx'. by destruct (Hfresh x Hx').
      * done.
    + intros i j Hij. rewrite Hl in Hij. rewrite Ho.
      apply elem_of_app in Hij as [Hij | Hij].
      * destruct (Ilog i j Hij) as (Hio & Hlt & Hsh).
        split_and!; [| done | done]. apply elem_of_app. by left.
      * apply list_elem_of_fmap in Hij as (j' & [= -> ->] & Hj').
        destruct (Hin j' Hj') as (Hne & Hnp' & done & Hcand). split_and!.
        -- apply elem_of_app. right. by apply list_elem_of_singleton.
        -- destruct (decide (j' < k)) as [Hlt | Hge]; [| lia].
           exfalso. by apply Hnp', Idone.
        -- apply collectCandidates_sound in Hcand
             as (word & entries & entry & Hw & Hlook & Hentry & <-).
           destruct (Hidx _ _ _ Hlook Hentry) as (cj & Hcj & Hwj).
           by exists current0, cj, word.
    + intros p i r Hp Hr. rewrite Ho in Hp. rewrite Hm in Hr.
      destruct (decide (p < length (origins st))) as [Hlt | Hge].
      * rewrite lookup_app_l in Hp by lia.
        rewrite lookup_app_l in Hr by lia.
        destruct (Igroup p i r Hp Hr) as (cur0 & Hcur0 & Hr0 & Hv0).
        assert (Hik : i <> k).
        { intros ->. apply Hk_orig. by eapply list_elem_of_lookup_2. }
        exists cur0.
        by rewrite Hl, absorbedBy_app, absorbedBy_pair_other, app_nil_r.
      * rewrite lookup_app_r in Hp by lia.
        rewrite lookup_app_r in Hr by lia.
        rewrite Ilen in Hr.
        destruct (p - length (origins st)) as [| n]; cbn in Hp, Hr;
          [| by destruct n].
        injection Hp as <-. injection Hr as <-.
        exists current0.
        by rewrite Hl, absorbedBy_app, (absorbedBy_none k (mergeLog st)),
          absorbedBy_pair_same.
Qed.

Lemma foldl_seq_invariant {A} (P : nat -> A -> Prop) (f : A -> nat -> A) n :
  forall start a,
    P start a ->
    (forall k a, start <= k < start + n -> P k a -> P (S k) (f a k)) ->
    P (start + n) (foldl f a (seq start n)).
Proof.
  induction n as [| n IH]; intros start a Ha Hstep.
  - by rewrite Nat.add_0_r.
  - cbn [seq foldl]. replace (start + S n) with (S start + n) by lia.
    apply IH.
    + apply Hstep; [lia | exact Ha].
    + intros k a' Hk. apply Hstep. lia.
Qed.

(** The invariant holds when [mergeSimilarContactsFocused] returns. *)
Lemma mergeSimilarContactsFocused_inv contacts :
  PassInv contacts (length contacts) (mergeSimilarContactsFocused contacts).
Proof.
  unfold mergeSimilarContactsFocused.
  apply (foldl_seq_invariant (PassInv contacts) _ (length contacts) 0).
  - apply PassInv_init.
  - intros k st Hk. apply PassInv_step; [apply buildIndex_sound | lia].
Qed.

Lemma origin_record contacts k st i :
  PassInv contacts k st -> i ∈ origins st ->
  exists p r current0,
    origins st !! p = Some i /\ merged st !! p = Some r
    /\ contacts !! i = Some current0
    /\ r = foldAbsorb contacts current0 (absorbedBy i (mergeLog st))
    /\ validFold contacts (normalizeName (getNameForComparison current0))
         current0 (absorbedBy i (mergeLog st)).
Proof.
  intros Hinv Hi. apply list_elem_of_lookup_1 in Hi as [p Hp].
  assert (Hr : is_Some (merged st !! p)).
  { apply lookup_lt_is_Some. rewrite (inv_length _ _ _ Hinv).
    by apply lookup_lt_Some in Hp. }
  destruct Hr as [r Hr].
  destruct (inv_group _ _ _ Hinv p i r Hp Hr) as (current0 & ? & ? & ?).
  by exists p, r, current0.
Qed.

(** Every merge of a run joined two records with similar comparison
    names. *)
Lemma merge_entry contacts k st i j :
  PassInv contacts k st -> (i, j) ∈ mergeLog st ->
  exists ci cj,
    contacts !! i = Some ci /\ contacts !! j = Some cj
    /\ truthy (getNameForComparison cj) = true
    /\ areNamesSimilar (normalizeName (getNameForComparison ci))
         (normalizeName (getNameForComparison cj)) (7 # 10) = true.
Proof.
  intros Hinv Hij.
  destruct (inv_log _ _ _ Hinv i j Hij) as (Hi & _ & _).
  destruct (origin_record _ _ _ _ Hinv Hi) as (p & r & ci & _ & _ & Hci & _ & Hv).
  apply elem_of_absorbedBy in Hij.
  destruct (validFold_member _ _ _ _ _ Hv Hij) as (cj & Hcj & Ht & Hs).
  by exists ci, cj.
Qed.

(** C2: for every candidate list, when [mergeSimilarContactsFocused]
    returns, [merged.length + mergeCount] is [contacts.length]: emitted
    plus absorbed records are the input records. *)
Theorem merge_conservation (contacts : list Contact) :
  length (merged (mergeSimilarContactsFocused contacts))
  + mergeCount (mergeSimilarContactsFocused contacts)
  = length contacts.
Proof.
  pose proof (mergeSimilarContactsFocused_inv contacts) as Hinv.
  set (st := mergeSimilarContactsFocused contacts) in *.
  rewrite (inv_length _ _ _ Hinv), (inv_count _ _ _ Hinv).
  rewrite <- (length_fmap snd (mergeLog st)), <- length_app.
  rewrite <- (length_seq (length contacts) 0).
  apply Permutation_length, NoDup_Permutation.
  - apply (inv_nodup _ _ _ Hinv).
  - apply NoDup_seq.
  - intros x. rewrite elem_of_app, <- (inv_processed _ _ _ Hinv), elem_of_seq.
    split.
    + intros Hx. apply (inv_bound _ _ _ Hinv) in Hx. lia.
    + intros Hx. apply (inv_done _ _ _ Hinv). lia.
Qed.

Lemma getNameForComparison_none contact :
  linkedin_name contact = NA -> phonebook_name contact = NA ->
  email_name contact = NA -> getNameForComparison contact = None.
Proof.
  intros Hl Hp He. unfold getNameForComparison, notNA.
  by rewrite Hl, Hp, He, !bool_decide_eq_true_2.
Qed.

(** C10: a candidate whose three name slots are all ['N/A'] takes part in
    no merge of the pass, neither as the absorber nor as the absorbed, and
    the pass emits it once, unchanged. *)
Theorem nameless_untouched (contacts : list Contact) (k : nat) (c : Contact) :
  contacts !! k = Some c ->
  linkedin_name c = NA -> phonebook_name c = NA -> email_name c = NA ->
  let st := mergeSimilarContactsFocused contacts in
  (forall i j, (i, j) ∈ mergeLog st -> i <> k /\ j <> k)
  /\ exists p,
       origins st !! p = Some k /\ merged st !! p = Some c
       /\ forall q, origins st !! q = Some k -> q = p.
Proof.
  intros Hk Hl Hp He st.
  pose proof (mergeSimilarContactsFocused_inv contacts) as Hinv.
  fold st in Hinv.
  pose proof (getNameForComparison_none c Hl Hp He) as Hname.
  assert (Hlog : forall i j, (i, j) ∈ mergeLog st -> i <> k /\ j <> k).
  { intros i j Hij.
    destruct (merge_entry _ _ _ _ _ Hinv Hij) as (ci & cj & Hci & Hcj & Ht & Hs).
    split; intros ->.
    - rewrite Hk in Hci. injection Hci as <-.
      rewrite Hname in Hs. discriminate Hs.
    - rewrite Hk in Hcj. injection Hcj as <-.
      rewrite Hname in Ht. discriminate Ht. }
  split; [exact Hlog |].
  assert (Hko : k ∈ origins st).
  { assert (Hkp : k ∈ processed st).
    { apply (inv_done _ _ _ Hinv). by apply lookup_lt_Some in Hk. }
    apply (inv_processed _ _ _ Hinv) in Hkp as [Hko | Hks]; [done |].
    apply list_elem_of_fmap in Hks as ([i j] & -> & Hij).
    by destruct (Hlog i j Hij). }
  destruct (origin_record _ _ _ _ Hinv Hko) as (p & r & c0 & Hpo & Hpm & Hc0 & Hr & _).
  exists p. split_and!; [done | |].
  - rewrite Hk in Hc0. injection Hc0 as <-.
    rewrite absorbedBy_none in Hr.
    + by rewrite Hpm, Hr.
    + intros j Hj. by destruct (Hlog k j Hj).
  - intros q Hq.
    pose proof (inv_nodup _ _ _ Hinv) as Hnd.
    apply NoDup_app in Hnd as [Hnd _].
    by apply (NoDup_lookup _ q p k Hnd).
Qed.

Lemma nameless_untouched_witness :
  let st := mergeSimilarContactsFocused nameless_sample in
  (forall i j, (i, j) ∈ mergeLog st -> i <> 1 /\ j <> 1)
  /\ exists p,
       origins st !! p = Some 1
       /\ merged st !! p
          = Some (mkContact "N/A" "N/A" "N/A" (str "asha@x.com") None)
       /\ forall q, origins st !! q = Some 1 -> q = p.
Proof.
  apply (nameless_untouched nameless_sample 1
           (mkContact "N/A" "N/A" "N/A" (str "asha@x.com") None));
    reflexivity.
Defined.

(** C9 as the specification states it fails: the exhaustive pass folds
    "Smyth" into "Smith" (the two words are close), the inverted-index pass
    keeps both records, as they share no word. *)
Lemma index_pass_counterexample :
  let contacts := [mkContact "Smith" "N/A" "N/A" None None;
                   mkContact "Smyth" "N/A" "N/A" None None] in
  mergeSimilarContacts contacts = [mkContact "Smyth" "N/A" "N/A" None None]
  /\ merged (mergeSimilarContactsFocused contacts) = contacts
  /\ merged (mergeSimilarContactsFocused contacts)
     <> mergeSimilarContacts contacts.
Proof. split; [| split]; by vm_compute. Qed.

(** C9, amended: the inverted index changes which candidates get merged.
    The inverted-index pass folds a later record [j] into an earlier record
    [i] only when their normalized comparison names share a significant
    word, letter for letter, besides being similar at threshold 0.7; a pair
    that is similar without a shared word is merged by the exhaustive pass
    alone. *)
Theorem index_pass_merges_share_word (contacts : list Contact) (i j : nat) :
  (i, j) ∈ mergeLog (mergeSimilarContactsFocused contacts) ->
  i < j
  /\ sharesWord contacts i j
  /\ exists ci cj,
       contacts !! i = Some ci /\ contacts !! j = Some cj
       /\ areNamesSimilar (normalizeName (getNameForComparison ci))
            (normalizeName (getNameForComparison cj)) (7 # 10) = true.
Proof.
  intros Hij.
  pose proof (mergeSimilarContactsFocused_inv contacts) as Hinv.
  destruct (inv_log _ _ _ Hinv i j Hij) as (_ & Hlt & Hsh).
  destruct (merge_entry _ _ _ _ _ Hinv Hij) as (ci & cj & Hci & Hcj & _ & Hs).
  split_and!; [done | done |]. by exists ci, cj.
Qed.

Lemma index_pass_merges_share_word_witness :
  0 < 1
  /\ sharesWord shared_word_sample 0 1
  /\ exists ci cj,
       shared_word_sample !! 0 = Some ci /\ shared_word_sample !! 1 = Some cj
       /\ areNamesSimilar (normalizeName (getNameForComparison ci))
            (normalizeName (getNameForComparison cj)) (7 # 10) = true.
Proof.
  apply (index_pass_merges_share_word shared_word_sample 0 1).
  vm_compute. by left.
Defined.

(** ** Hard identifiers within a merge group *)

Lemma validFold_email contacts cn js :
  forall current, validFold contacts cn current js ->
                  keyChain email contacts current js.
Proof.
  induction js as [| j js IH]; intros current Hv; [done |].
  destruct Hv as (candidate & Hc & He & _ & _ & _ & Hv).
  exists candidate. split_and!; [done | done |]. by apply IH.
Qed.

Lemma validFold_phone contacts cn js :
  forall current, validFold contacts cn current js ->
                  keyChain phone contacts current js.
Proof.
  induction js as [| j js IH]; intros current Hv; [done |].
  destruct Hv as (candidate & Hc & _ & Hp & _ & _ & Hv).
  exists candidate. split_and!; [done | done |]. by apply IH.
Qed.

Section HardKey.
Variable key : Contact -> jsval.
Hypothesis key_absorb : forall current candidate,
  key (absorb current candidate)
  = if negb (truthy (key current)) && truthy (key candidate)
    then key candidate else key current.

Lemma conflicting_false (a b : jsval) :
  conflicting a b = false -> truthy a = true -> truthy b = true -> a = b.
Proof.
  unfold conflicting. intros Hc Ha Hb. rewrite Ha, Hb in Hc. cbn in Hc.
  apply negb_false_iff in Hc. by apply bool_decide_eq_true in Hc.
Qed.

(** A present key of the record survives a fold, and a present key of
    a folded candidate is the key of the record after the fold. *)
Lemma keyChain_agree contacts js :
  forall current,
    keyChain key contacts current js ->
    (truthy (key current) = true ->
     key (foldAbsorb contacts current js) = key current)
    /\ forall j candidate,
         j ∈ js -> contacts !! j = Some candidate ->
         truthy (key candidate) = true ->
         key (foldAbsorb contacts current js) = key candidate.
Proof.
  induction js as [| j js IH]; intros current Hchain.
  - split; [done |]. intros j c Hj. by apply elem_of_nil in Hj.
  - destruct Hchain as (candidate & Hc & Hconf & Hchain).
    destruct (IH _ Hchain) as [IHcur IHmem].
    unfold foldAbsorb in *. cbn [foldl]. rewrite Hc.
    split.
    + intros Ht. rewrite IHcur; rewrite key_absorb, Ht; done.
    + intros j' c' Hj' Hc' Ht'.
      apply elem_of_cons in Hj' as [-> | Hj']; [| by apply (IHmem j')].
      rewrite Hc in Hc'. injection Hc' as ->.
      assert (Hk : key (absorb current c') = key c').
      { rewrite key_absorb, Ht'.
        destruct (truthy (key current)) eqn:Htc; [| done].
        cbn. by apply conflicting_false. }
      rewrite IHcur; rewrite Hk; done.
Qed.

End HardKey.

Lemma group_key_agree (key : Contact -> jsval) contacts st k i a ca c0 :
  (forall current candidate,
     key (absorb current candidate)
     = if negb (truthy (key current)) && truthy (key candidate)
       then key candidate else key current) ->
  (forall current0 js,
     validFold contacts (normalizeName (getNameForComparison current0))
       current0 js -> keyChain key contacts current0 js) ->
  PassInv contacts k st ->
  i ∈ origins st -> contacts !! i = Some c0 ->
  a = i \/ (i, a) ∈ mergeLog st ->
  contacts !! a = Some ca -> truthy (key ca) = true ->
  key (foldAbsorb contacts c0 (absorbedBy i (mergeLog st))) = key ca.
Proof.
  intros Habs Hchain Hinv Hi Hc0 Ha Hca Ht.
  destruct (origin_record _ _ _ _ Hinv Hi)
    as (p & r & c0' & _ & _ & Hc0' & _ & Hv).
  rewrite Hc0 in Hc0'. injection Hc0' as <-.
  destruct (keyChain_agree key Habs contacts _ _ (Hchain _ _ Hv))
    as [Hcur Hmem].
  destruct Ha as [-> | Ha].
  - rewrite Hc0 in Hca. injection Hca as ->. by apply Hcur.
  - apply elem_of_absorbedBy in Ha. by apply (Hmem a).
Qed.

(** C3: whatever their names, two candidates that both carry an e-mail are
    folded into one output record only when the e-mails are equal, and two
    candidates that both carry a phone only when the phones are equal.  An
    identifier is carried when it is not [null] (and not the empty string,
    which the code takes for absent too and the exact-key query never
    yields). *)
Theorem no_merge_across_conflicting_keys (contacts : list Contact)
    (a b : nat) (ca cb : Contact) :
  contacts !! a = Some ca -> contacts !! b = Some cb ->
  sameGroup (mergeSimilarContactsFocused contacts) a b ->
  (truthy (email ca) = true -> truthy (email cb) = true ->
   email ca = email cb)
  /\ (truthy (phone ca) = true -> truthy (phone cb) = true ->
      phone ca = phone cb).
Proof.
  intros Hca Hcb (i & Hi & Ha & Hb).
  pose proof (mergeSimilarContactsFocused_inv contacts) as Hinv.
  set (st := mergeSimilarContactsFocused contacts) in *.
  destruct (origin_record _ _ _ _ Hinv Hi) as (p & r & c0 & _ & _ & Hc0 & _ & _).
  assert (Hemail : forall current candidate,
    email (absorb current candidate)
    = if negb (truthy (email current)) && truthy (email candidate)
      then email candidate else email current) by done.
  assert (Hphone : forall current candidate,
    phone (absorb current candidate)
    = if negb (truthy (phone current)) && truthy (phone candidate)
      then phone candidate else phone current) by done.
  pose proof (fun c js => validFold_email contacts
    (normalizeName (getNameForComparison c)) js c) as Hce.
  pose proof (fun c js => validFold_phone contacts
    (normalizeName (getNameForComparison c)) js c) as Hcp.
  split; intros Hta Htb.
  - rewrite <- (group_key_agree email contacts st _ i a ca c0
                  Hemail Hce Hinv Hi Hc0 Ha Hca Hta).
    apply (group_key_agree email contacts st _ i b cb c0
             Hemail Hce Hinv Hi Hc0 Hb Hcb Htb).
  - rewrite <- (group_key_agree phone contacts st _ i a ca c0
                  Hphone Hcp Hinv Hi Hc0 Ha Hca Hta).
    apply (group_key_agree phone contacts st _ i b cb c0
             Hphone Hcp Hinv Hi Hc0 Hb Hcb Htb).
Qed.

Lemma no_merge_across_conflicting_keys_witness :
  mergeLog (mergeSimilarContactsFocused same_email_sample) = [(0, 2)]
  /\ email (mkContact "Asha Rao" "N/A" "N/A" (str "asha@x.com") None)
     = email (mkContact "N/A" "Asha Rao" "N/A" (str "asha@x.com")
                (str "9876543210")).
Proof.
  split; [by vm_compute |].
  refine (proj1 (no_merge_across_conflicting_keys same_email_sample 0 2
                   _ _ _ _ _) _ _); try reflexivity.
  exists 0. split_and!.
  - vm_compute. by left.
  - by left.
  - right. vm_compute. by left.
Defined.

(** ** Name slots within a merge group *)

Lemma slotName_absorb slot current candidate :
  slotName slot (absorb current candidate)
  = if notNA (slotName slot candidate) then slotName slot candidate
    else slotName slot current.
Proof. by destruct slot. Qed.

Lemma foldAbsorb_app contacts current js1 js2 :
  foldAbsorb contacts current (js1 ++ js2)
  = foldAbsorb contacts (foldAbsorb contacts current js1) js2.
Proof. unfold foldAbsorb. by rewrite foldl_app. Qed.

Lemma notNA_false x : x = NA -> notNA x = false.
Proof. intros ->. unfold notNA. by rewrite bool_decide_eq_true_2. Qed.

(** Candidates with ['N/A'] in a slot leave the slot of the record as it
    is. *)
Lemma slotName_foldAbsorb_NA slot contacts js :
  forall current,
    (forall j c, j ∈ js -> contacts !! j = Some c -> slotName slot c = NA) ->
    slotName slot (foldAbsorb contacts current js) = slotName slot current.
Proof.
  induction js as [| j js IH]; intros current Hna; [done |].
  unfold foldAbsorb in *. cbn [foldl].
  rewrite IH.
  - destruct (contacts !! j) as [c |] eqn:Hc; [| done].
    rewrite slotName_absorb, notNA_false; [done |].
    apply (Hna j); [by left | done].
  - intros j' c' Hj'. apply Hna. by right.
Qed.

(** C1 as the specification states it fails: the record "John Smith"
    absorbs the candidate "John Smyth", and its populated professional
    network name is overwritten with the different name of the
    candidate. *)
Lemma name_slot_counterexample :
  let c0 := mkContact "John Smith" "N/A" "N/A" None None in
  let c1 := mkContact "John Smyth" "N/A" "N/A" None None in
  let st := mergeSimilarContactsFocused [c0; c1] in
  mergeLog st = [(0, 1)]
  /\ notNA (linkedin_name c0) = true
  /\ merged st = [c1]
  /\ linkedin_name c1 <> linkedin_name c0.
Proof. split_and!; by vm_compute. Qed.

(** C1, amended: when candidates are folded into a record, a name slot of
    the output record holds the name of the last absorbed candidate whose
    slot is not ['N/A'], whether or not the slot was populated before (the
    last writer per slot wins); candidates whose slot is ['N/A'] leave the
    slot as it is. *)
Theorem name_slot_last_writer (contacts : list Contact) (slot : NameSlot)
    (p i : nat) (r : Contact) :
  let st := mergeSimilarContactsFocused contacts in
  origins st !! p = Some i -> merged st !! p = Some r ->
  exists current0,
    contacts !! i = Some current0
    /\ (forall js1 j js2 candidate,
          absorbedBy i (mergeLog st) = js1 ++ j :: js2 ->
          contacts !! j = Some candidate ->
          notNA (slotName slot candidate) = true ->
          (forall j' c', j' ∈ js2 -> contacts !! j' = Some c' ->
                         slotName slot c' = NA) ->
          slotName slot r = slotName slot candidate)
    /\ ((forall j c, j ∈ absorbedBy i (mergeLog st) ->
                     contacts !! j = Some c -> slotName slot c = NA) ->
        slotName slot r = slotName slot current0).
Proof.
  intros st Hp Hr.
  pose proof (mergeSimilarContactsFocused_inv contacts) as Hinv.
  fold st in Hinv.
  destruct (inv_group _ _ _ Hinv p i r Hp Hr) as (current0 & Hc0 & -> & _).
  exists current0. split_and!; [done | |].
  - intros js1 j js2 candidate -> Hc Hnot Hrest.
    rewrite foldAbsorb_app. unfold foldAbsorb at 1. cbn [foldl]. rewrite Hc.
    fold (foldAbsorb contacts
            (absorb (foldAbsorb contacts current0 js1) candidate) js2).
    rewrite slotName_foldAbsorb_NA by done.
    by rewrite slotName_absorb, Hnot.
  - intros Hna. by apply slotName_foldAbsorb_NA.
Qed.

Lemma name_slot_last_writer_witness :
  let st := mergeSimilarContactsFocused last_writer_sample in
  absorbedBy 0 (mergeLog st) = [1; 2]
  /\ exists r, merged st !! 0 = Some r
               /\ slotName LinkedinSlot r = js "John Smyth".
Proof.
  split; [by vm_compute |].
  eexists. split; [by vm_compute |].
  destruct (name_slot_last_writer last_writer_sample LinkedinSlot 0 0
              (mkContact "John Smyth" "John Smith" "N/A" None (str "9876543210")))
    as (c0 & Hc0 & Hlast & _); [by vm_compute | by vm_compute |].
  apply (Hlast [] 1 [2] (mkContact "John Smyth" "N/A" "N/A" None None));
    [by vm_compute | by vm_compute | by vm_compute |].
  intros j' c' Hj' Hc'. apply list_elem_of_singleton in Hj' as ->.
  vm_compute in Hc'. injection Hc' as <-. reflexivity.
Defined.

(** ** Ranking *)

Section Ranking.

(** [String.prototype.localeCompare], which the host provides. *)
Variable localeCompare : jsstring -> jsstring -> Z.

(** It is a consistent comparator. *)
Hypothesis localeCompare_antisym : forall a b,
  (0 < localeCompare a b -> localeCompare b a <= 0)%Z.
Hypothesis localeCompare_trans : forall a b c,
  (localeCompare a b <= 0 -> localeCompare b c <= 0 ->
   localeCompare a c <= 0)%Z.

Lemma score_range c : (1 <= score c <= 3)%Z.
Proof.
  unfold score.
  destruct (notNA (linkedin_name c)), (notNA (phonebook_name c)); lia.
Qed.

Lemma ranked_iff a b :
  (ranked localeCompare) a b <->
  (score a < score b)%Z
  \/ (score a = score b
      /\ (localeCompare (sortName a) (sortName b) <= 0)%Z).
Proof.
  unfold ranked, compareContacts.
  destruct (Z.eqb_spec (score a) (score b)) as [Heq | Hne]; cbn [negb]; lia.
Qed.

Lemma ranked_total a b : ~ (ranked localeCompare) a b -> (ranked localeCompare) b a.
Proof.
  rewrite !ranked_iff. intros Hnot.
  destruct (Z.lt_trichotomy (score a) (score b)) as [Hlt | [Heq | Hgt]].
  - exfalso. apply Hnot. by left.
  - right. split; [done |]. apply localeCompare_antisym.
    destruct (Z.le_gt_cases (localeCompare (sortName a) (sortName b)) 0);
      [| lia].
    exfalso. apply Hnot. by right.
  - by left.
Qed.

Lemma ranked_trans a b c : (ranked localeCompare) a b -> (ranked localeCompare) b c -> (ranked localeCompare) a c.
Proof.
  rewrite !ranked_iff. intros [Hab | [Hab Lab]] [Hbc | [Hbc Lbc]].
  - left. lia.
  - left. lia.
  - left. lia.
  - right. split; [lia |]. by apply (localeCompare_trans _ (sortName b)).
Qed.

Lemma insertSorted_Permutation x (l : list Contact) :
  insertSorted (compareContacts localeCompare) x l ≡ₚ x :: l.
Proof.
  induction l as [| y l IH]; [done |].
  cbn. destruct (compareContacts localeCompare x y <=? 0)%Z; [done |].
  by rewrite IH, Permutation_swap.
Qed.

Lemma rankContacts_Permutation l : (rankContacts localeCompare) l ≡ₚ l.
Proof.
  unfold rankContacts, jsSort. induction l as [| x l IH]; [done |].
  cbn [foldr]. by rewrite insertSorted_Permutation, IH.
Qed.

Lemma insertSorted_sorted x l :
  StronglySorted (ranked localeCompare) l ->
  StronglySorted (ranked localeCompare) (insertSorted (compareContacts localeCompare) x l).
Proof.
  induction 1 as [| y l Hl IH Hy]; [by repeat constructor |].
  cbn. destruct (Z.leb_spec (compareContacts localeCompare x y) 0) as [Hle | Hgt].
  - constructor; [by constructor |].
    constructor; [exact Hle |].
    eapply List.Forall_impl; [| exact Hy].
    intros z. by apply ranked_trans.
  - constructor; [exact IH |].
    rewrite insertSorted_Permutation. constructor; [| exact Hy].
    apply ranked_total. unfold ranked. lia.
Qed.

Lemma rankContacts_sorted l : StronglySorted (ranked localeCompare) (rankContacts localeCompare l).
Proof.
  unfold rankContacts, jsSort. induction l as [| x l IH]; [constructor |].
  cbn [foldr]. by apply insertSorted_sorted.
Qed.

Lemma StronglySorted_lookup (l : list Contact) :
  StronglySorted (ranked localeCompare) l ->
  forall i j a b,
    i < j -> l !! i = Some a -> l !! j = Some b -> (ranked localeCompare) a b.
Proof.
  induction 1 as [| x l Hl IH Hx]; intros i j a b Hij Ha Hb.
  - by rewrite lookup_nil in Ha.
  - destruct j as [| j]; [lia |]. cbn in Hb.
    destruct i as [| i].
    + cbn in Ha. injection Ha as <-.
      rewrite List.Forall_forall in Hx. apply Hx.
      apply list_elem_of_In. by eapply list_elem_of_lookup_2.
    + cbn in Ha. apply (IH i j); [lia | done | done].
Qed.

(** C8: the final sort returns the merged records in an order where a
    record with a professional-network name comes before a record with
    only a phone-book name, which comes before a record with neither
    (only an e-mail name); records of equal priority are in ascending
    order of the name used for scoring, as [localeCompare] orders
    names: two records with a professional-network name by that name,
    two records with only a phone-book name by the phone-book name, two
    records with neither by the e-mail name. *)
Theorem ranking_order (mergedResults : list Contact) :
  let out := (rankContacts localeCompare) mergedResults in
  out ≡ₚ mergedResults
  /\ (forall i j a b,
        out !! i = Some a -> out !! j = Some b ->
        notNA (linkedin_name a) = true ->
        linkedin_name b = NA ->
        i < j)
  /\ (forall i j a b,
        out !! i = Some a -> out !! j = Some b ->
        linkedin_name a = NA -> notNA (phonebook_name a) = true ->
        linkedin_name b = NA -> phonebook_name b = NA ->
        i < j)
  /\ (forall i j a b,
        i < j -> out !! i = Some a -> out !! j = Some b ->
        notNA (linkedin_name a) = true ->
        notNA (linkedin_name b) = true ->
        (localeCompare (linkedin_name a) (linkedin_name b) <= 0)%Z)
  /\ (forall i j a b,
        i < j -> out !! i = Some a -> out !! j = Some b ->
        linkedin_name a = NA -> notNA (phonebook_name a) = true ->
        linkedin_name b = NA -> notNA (phonebook_name b) = true ->
        (localeCompare (phonebook_name a) (phonebook_name b) <= 0)%Z)
  /\ (forall i j a b,
        i < j -> out !! i = Some a -> out !! j = Some b ->
        linkedin_name a = NA -> phonebook_name a = NA ->
        linkedin_name b = NA -> phonebook_name b = NA ->
        (localeCompare (email_name a) (email_name b) <= 0)%Z).
Proof.
  intros out.
  pose proof (StronglySorted_lookup out (rankContacts_sorted mergedResults))
    as Hsorted.
  assert (Hlt : forall i j a b,
    out !! i = Some a -> out !! j = Some b ->
    (score a < score b)%Z -> i < j).
  { intros i j a b Ha Hb Hs.
    destruct (Nat.lt_trichotomy i j) as [Hij | [-> | Hji]]; [done | |].
    - rewrite Ha in Hb. injection Hb as ->. lia.
    - pose proof (Hsorted j i b a Hji Hb Ha) as Hr.
      apply ranked_iff in Hr. lia. }
  split_and!.
  - apply rankContacts_Permutation.
  - intros i j a b Ha Hb Hla Hlb. apply (Hlt i j a b Ha Hb).
    unfold score. rewrite Hla, (notNA_false _ Hlb).
    destruct (notNA (phonebook_name b)); lia.
  - intros i j a b Ha Hb Hla Hpa Hlb Hpb. apply (Hlt i j a b Ha Hb).
    unfold score.
    by rewrite (notNA_false _ Hla), Hpa, (notNA_false _ Hlb),
      (notNA_false _ Hpb).
  - intros i j a b Hij Ha Hb Hla Hlb.
    pose proof (Hsorted i j a b Hij Ha Hb) as Hr.
    apply ranked_iff in Hr. unfold score, sortName in Hr.
    rewrite Hla, Hlb in Hr. lia.
  - intros i j a b Hij Ha Hb Hla Hpa Hlb Hpb.
    pose proof (Hsorted i j a b Hij Ha Hb) as Hr.
    apply ranked_iff in Hr. unfold score, sortName in Hr.
    rewrite (notNA_false _ Hla), Hpa, (notNA_false _ Hlb), Hpb in Hr. lia.
  - intros i j a b Hij Ha Hb Hla Hpa Hlb Hpb.
    pose proof (Hsorted i j a b Hij Ha Hb) as Hr.
    apply ranked_iff in Hr. unfold score, sortName in Hr.
    rewrite (notNA_false _ Hla), (notNA_false _ Hpa),
      (notNA_false _ Hlb), (notNA_false _ Hpb) in Hr. lia.
Qed.

End Ranking.

Lemma compareUnits_antisym (a b : jsstring) :
  (0 < compareUnits a b -> compareUnits b a <= 0)%Z.
Proof.
  revert b. induction a as [| x a IH]; intros [| y b]; cbn; try lia.
  destruct (N.ltb_spec x y), (N.ltb_spec y x); try lia. apply IH.
Qed.

Lemma compareUnits_trans (a b c : jsstring) :
  (compareUnits a b <= 0 -> compareUnits b c <= 0 -> compareUnits a c <= 0)%Z.
Proof.
  revert b c. induction a as [| x a IH]; intros [| y b] [| z c]; cbn; try lia.
  destruct (N.ltb_spec x y), (N.ltb_spec y x), (N.ltb_spec y z),
    (N.ltb_spec z y), (N.ltb_spec x z), (N.ltb_spec z x); try lia.
  apply IH.
Qed.

Example ranking_sample_sorted :
  rankContacts compareUnits ranking_sample
  = [mkContact "Aaron Burr" "Aaron" "N/A" None (str "2125550100");
     mkContact "Amy Wong" "N/A" "Amy" (str "amy@x.com") None;
     mkContact "N/A" "Bob Stone" "N/A" None (str "9876543210");
     mkContact "N/A" "N/A" "Carl Marsh" (str "carl@x.com") None;
     mkContact "N/A" "N/A" "Zed Young" (str "zed@x.com") None].
Proof. by vm_compute. Qed.

Example ranking_ties_sample_sorted :
  rankContacts compareUnits ranking_ties_sample
  = [mkContact "Aaron Burr" "Zack" "N/A" None (str "2125550100");
     mkContact "Amy Wong" "N/A" "Amy" (str "amy@x.com") None;
     mkContact "N/A" "Abe Ford" "Zoe" (str "abe@x.com") None;
     mkContact "N/A" "Bob Stone" "Alan" None (str "9876543210");
     mkContact "N/A" "N/A" "Carl Marsh" (str "carl@x.com") None;
     mkContact "N/A" "N/A" "Zed Young" (str "zed@x.com") None].
Proof. by vm_compute. Qed.

Lemma ranking_order_witness :
  let out := rankContacts compareUnits ranking_ties_sample in
  out ≡ₚ ranking_ties_sample
  /\ (forall i j a b,
        out !! i = Some a -> out !! j = Some b ->
        notNA (linkedin_name a) = true ->
        linkedin_name b = NA ->
        i < j)
  /\ (forall i j a b,
        out !! i = Some a -> out !! j = Some b ->
        linkedin_name a = NA -> notNA (phonebook_name a) = true ->
        linkedin_name b = NA -> phonebook_name b = NA ->
        i < j)
  /\ (forall i j a b,
        i < j -> out !! i = Some a -> out !! j = Some b ->
        notNA (linkedin_name a) = true ->
        notNA (linkedin_name b) = true ->
        (compareUnits (linkedin_name a) (linkedin_name b) <= 0)%Z)
  /\ (forall i j a b,
        i < j -> out !! i = Some a -> out !! j = Some b ->
        linkedin_name a = NA -> notNA (phonebook_name a) = true ->
        linkedin_name b = NA -> notNA (phonebook_name b) = true ->
        (compareUnits (phonebook_name a) (phonebook_name b) <= 0)%Z)
  /\ (forall i j a b,
        i < j -> out !! i = Some a -> out !! j = Some b ->
        linkedin_name a = NA -> phonebook_name a = NA ->
        linkedin_name b = NA -> phonebook_name b = NA ->
        (compareUnits (email_name a) (email_name b) <= 0)%Z).
Proof.
  exact (ranking_order compareUnits compareUnits_antisym compareUnits_trans
           ranking_ties_sample).
Defined.

(** ** More on phone canonicalization *)

Lemma filter_all_digits (s : jsstring) :
  Forall (fun c => is_digit c = true) (List.filter is_digit s).
Proof.
  apply List.Forall_forall. intros c Hc. by apply filter_In in Hc as [_ Hc].
Qed.

Lemma filter_digits_id (s : jsstring) :
  Forall (fun c => is_digit c = true) s -> List.filter is_digit s = s.
Proof.
  induction 1 as [| c s Hc Hs IH]; [done |]. cbn. by rewrite Hc, IH.
Qed.

Lemma startsWith_take (s p : jsstring) (n : nat) :
  startsWith s p = true -> length p <= n -> startsWith (take n s) p = true.
Proof.
  revert s n. induction p as [| d p IH]; intros s n Hs Hn; [by destruct s, n |].
  destruct s as [| c s]; [done |]. cbn in Hn.
  destruct n as [| n]; [lia |]. cbn in *.
  apply andb_true_iff in Hs as [Hc Hs]. rewrite Hc. cbn.
  apply IH; [done | lia].
Qed.

(** [extractPhone] on a string, as a function of its digits. *)
Lemma extractPhone_cleaned (text : jsstring) :
  extractPhone (Some text)
  = let cleaned := List.filter is_digit text in
    if 10 <=? length cleaned then
      if startsWith cleaned (js "91") && (12 <=? length cleaned)
      then Some (take 12 cleaned)
      else Some (drop (length cleaned - 10) cleaned)
    else None.
Proof.
  destruct text as [| c text]; [reflexivity |].
  unfold extractPhone. cbn [truthy negb].
  change (default [] (Some (c :: text))) with (c :: text). cbv zeta.
  destruct (10 <=? length _) eqn:Hlen; [| done].
  apply Nat.leb_le in Hlen.
  rewrite substring_prefix, substring_suffix by lia. done.
Qed.

Lemma phone_canonical_form (phoneStr : jsval) (p : jsstring) :
  extractPhone phoneStr = Some p ->
  Forall (fun c => is_digit c = true) p
  /\ (length p = 10 \/ (length p = 12 /\ startsWith p (js "91") = true)).
Proof.
  destruct phoneStr as [text |]; [| done].
  rewrite extractPhone_cleaned. cbv zeta.
  pose proof (filter_all_digits text) as Hd.
  set (cleaned := List.filter is_digit text) in *.
  destruct (Nat.leb_spec 10 (length cleaned)) as [Hlen |]; [| done].
  destruct (startsWith cleaned (js "91") && (12 <=? length cleaned)) eqn:H91.
  - apply andb_true_iff in H91 as [Hs H12]. apply Nat.leb_le in H12.
    intros [= <-]. split; [by apply Forall_take |]. right. split.
    + rewrite length_take. lia.
    + apply startsWith_take; [done | cbn; lia].
  - intros [= <-]. split; [by apply Forall_drop |]. left.
    rewrite length_drop. lia.
Qed.

(** X1: a phone number returned by [extractPhone] is made of digits only
    and has 10 digits, or 12 digits of which the first two are 91. *)
Theorem extractPhone_shape (phoneStr : jsval) (p : jsstring) :
  extractPhone phoneStr = Some p ->
  Forall (fun c => is_digit c = true) p
  /\ (length p = 10 \/ (length p = 12 /\ startsWith p (js "91") = true)).
Proof. apply phone_canonical_form. Qed.

Lemma extractPhone_shape_witness :
  Forall (fun c => is_digit c = true) (js "919876543210")
  /\ (length (js "919876543210") = 10
      \/ (length (js "919876543210") = 12
          /\ startsWith (js "919876543210") (js "91") = true)).
Proof.
  apply (extractPhone_shape (Some (js "+91-98765-43210"))). reflexivity.
Defined.

(** X2: [extractPhone] maps its own results to themselves: a canonical
    number is canonicalized to itself, and [null] to [null]. *)
Theorem extractPhone_idempotent (phoneStr : jsval) :
  extractPhone (extractPhone phoneStr) = extractPhone phoneStr.
Proof.
  destruct (extractPhone phoneStr) as [p |] eqn:Hp; [| done].
  destruct (phone_canonical_form _ _ Hp) as [Hd Hlen].
  rewrite extractPhone_cleaned. cbv zeta. rewrite (filter_digits_id p Hd).
  destruct Hlen as [H10 | [H12 H91]].
  - rewrite H10. cbn. rewrite andb_false_r.
    by rewrite drop_0.
  - rewrite H12, H91. cbn. f_equal. apply take_ge. lia.
Qed.

(** X3: [extractPhone] looks at the digits only: two strings with the same
    digits in the same order, however they are punctuated, give the same
    result. *)
Theorem extractPhone_digits_only (a b : jsstring) :
  List.filter is_digit a = List.filter is_digit b ->
  extractPhone (Some a) = extractPhone (Some b).
Proof. intros Heq. rewrite !extractPhone_cleaned. cbv zeta. by rewrite Heq. Qed.

Lemma extractPhone_digits_only_witness :
  extractPhone (Some (js "(212) 555-0100"))
  = extractPhone (Some (js " 212.555.0100 ")).
Proof. apply extractPhone_digits_only. reflexivity. Defined.

(** ** More on name normalization *)

(** X4: a name returned by [normalizeName] is a sequence of words joined
    by single spaces; no word is empty and every word is made of the
    letters a-z only, so the name has no space at either end and no two
    spaces in a row. *)
Theorem normalizeName_shape (name : jsval) (y : jsstring) :
  normalizeName name = Some y ->
  exists ws,
    y = join_sp ws
    /\ Forall (fun w => w <> [] /\ Forall (fun c => is_lower c = true) w) ws.
Proof.
  destruct name as [[| c s] |]; [done | | done].
  cbn [normalizeName]. intros [= <-].
  exists (tokens (c :: s)). split.
  - apply normalizeChain_canon.
  - apply tokens_canon.
Qed.

Lemma normalizeName_shape_witness :
  exists ws,
    js "dr john o neil" = join_sp ws
    /\ Forall (fun w => w <> [] /\ Forall (fun c => is_lower c = true) w) ws.
Proof.
  apply (normalizeName_shape (Some (js "  Dr. John   O'Neil-3 "))).
  reflexivity.
Defined.

Lemma lowered_unit_case c :
  lower_unit (if is_letter (lower_unit c) || is_space (lower_unit c)
              then lower_unit c else SPACE)
  = lower_unit (if is_letter c || is_space c then c else SPACE).
Proof.
  unfold lower_unit at 2 3 4. destruct (is_upper c) eqn:Hu; [| done].
  pose proof (upper_lowered c Hu) as Hl.
  unfold is_letter at 1. rewrite Hl, orb_true_r. cbn [orb].
  unfold is_letter. rewrite Hu. cbn [orb].
  unfold lower_unit. by rewrite Hu, (lower_not_upper _ Hl).
Qed.

Lemma normalizeChain_case (a b : jsstring) :
  toLowerCase a = toLowerCase b -> normalizeChain a = normalizeChain b.
Proof.
  intros Heq. unfold normalizeChain. do 3 f_equal.
  assert (Hmap : forall s,
    toLowerCase (replace_non_letters s)
    = toLowerCase (replace_non_letters (toLowerCase s))).
  { intros s. unfold toLowerCase, replace_non_letters.
    rewrite !List.map_map. apply List.map_ext. intros c.
    symmetry. apply lowered_unit_case. }
  by rewrite (Hmap a), (Hmap b), Heq.
Qed.

(** X5: [normalizeName] does not see the case of ASCII letters: two
    strings that are equal once A-Z are lowered to a-z give the same
    result. *)
Theorem normalizeName_case_insensitive (a b : jsstring) :
  toLowerCase a = toLowerCase b ->
  normalizeName (Some a) = normalizeName (Some b).
Proof.
  intros Heq. pose proof (normalizeChain_case a b Heq) as Hc.
  destruct a as [| x a], b as [| y b]; try done.
  cbn [normalizeName]. by rewrite Hc.
Qed.

Lemma normalizeName_case_insensitive_witness :
  normalizeName (Some (js "ABHIJIT Hazari")) = normalizeName (Some (js "Abhijit HAZARI")).
Proof. apply normalizeName_case_insensitive. reflexivity. Defined.

(** ** Edit distance *)

Lemma editDistance_nil_r a : editDistance a [] = length a.
Proof. by destruct a. Qed.

Lemma editDistance_nil_l b : editDistance [] b = length b.
Proof. by destruct b. Qed.

Lemma editDistance_cons x a y b :
  editDistance (x :: a) (y :: b)
  = Nat.min (Nat.min (editDistance a (y :: b) + 1)
               (editDistance (x :: a) b + 1))
      (editDistance a b + (if (x =? y)%N then 0 else 1)).
Proof. reflexivity. Qed.

Lemma rowFrom_unfold ra suffix rb :
  rowFrom ra suffix rb
  = editDistance ra rb
    :: match suffix with
       | [] => []
       | x :: suffix' => rowFrom (x :: ra) suffix' rb
       end.
Proof. by destruct suffix. Qed.

(** A row of the matrix is filled from the row above as the recurrence
    says. *)
Lemma fill_row_rowFrom c2 suffix :
  forall ra rb,
    fill_row c2 suffix (rowFrom ra suffix rb) (editDistance ra (c2 :: rb))
    = tail (rowFrom ra suffix (c2 :: rb)).
Proof.
  induction suffix as [| x suffix IH]; intros ra rb; [reflexivity |].
  cbn [rowFrom tail].
  rewrite (rowFrom_unfold (x :: ra) suffix rb).
  cbn [fill_row].
  rewrite <- (rowFrom_unfold (x :: ra) suffix rb).
  rewrite (rowFrom_unfold (x :: ra) suffix (c2 :: rb)) at 1.
  assert (Hcell :
    Nat.min (Nat.min (editDistance (x :: ra) rb + 1)
               (editDistance ra (c2 :: rb) + 1))
      (editDistance ra rb + (if (x =? c2)%N then 0 else 1))
    = editDistance (x :: ra) (c2 :: rb)).
  { rewrite editDistance_cons. lia. }
  rewrite Hcell. f_equal.
  rewrite IH. by rewrite (rowFrom_unfold (x :: ra) suffix (c2 :: rb)).
Qed.

Lemma rowFrom_first_row suffix :
  forall ra, seq (length ra) (S (length suffix)) = rowFrom ra suffix [].
Proof.
  induction suffix as [| x suffix IH]; intros ra.
  - cbn. by rewrite editDistance_nil_r.
  - cbn [length seq rowFrom]. rewrite editDistance_nil_r. f_equal.
    apply (IH (x :: ra)).
Qed.

Lemma rowFrom_lookup suffix :
  forall ra rb k,
    k <= length suffix ->
    rowFrom ra suffix rb !! k
    = Some (editDistance (rev (take k suffix) ++ ra) rb).
Proof.
  induction suffix as [| x suffix IH]; intros ra rb k Hk.
  - cbn in Hk. by replace k with 0 by lia.
  - destruct k as [| k]; [done |].
    cbn [rowFrom lookup list_lookup take rev]. cbn in Hk.
    rewrite IH by lia. by rewrite <- app_assoc.
Qed.

Lemma fill_rows_lookup str1 suffix2 :
  forall rb k,
    k < length suffix2 ->
    fill_rows str1 suffix2 (rowFrom [] str1 rb) (S (length rb)) !! k
    = Some (rowFrom [] str1 (rev (take (S k) suffix2) ++ rb)).
Proof.
  induction suffix2 as [| c2 suffix2 IH]; intros rb k Hk; [cbn in Hk; lia |].
  cbn [fill_rows].
  assert (Hrow : S (length rb) :: fill_row c2 str1 (rowFrom [] str1 rb)
                                    (S (length rb))
                 = rowFrom [] str1 (c2 :: rb)).
  { change (S (length rb)) with (editDistance [] (c2 :: rb)).
    rewrite fill_row_rowFrom. by destruct str1. }
  rewrite Hrow.
  destruct k as [| k].
  - cbn. by rewrite take_0.
  - cbn [lookup list_lookup]. cbn in Hk.
    change (S (S (length rb))) with (S (length (c2 :: rb))).
    rewrite IH by lia. cbn [take rev]. by rewrite <- app_assoc.
Qed.

(** [levenshteinDistance] is the recurrence at the two whole strings. *)
Lemma levenshteinDistance_editDistance str1 str2 :
  levenshteinDistance str1 str2 = editDistance (rev str1) (rev str2).
Proof.
  unfold levenshteinDistance, levenshteinMatrix.
  assert (Hrow : (seq 0 (S (length str1))
                  :: fill_rows str1 str2 (seq 0 (S (length str1))) 1)
                 !! length str2
                 = Some (rowFrom [] str1 (rev str2))).
  { pose proof (rowFrom_first_row str1 []) as Hfirst.
    change (length (@nil N)) with 0 in Hfirst. rewrite Hfirst.
    destruct (length str2) as [| k] eqn:Hlen.
    - by destruct str2.
    - change (fill_rows str1 str2 (rowFrom [] str1 []) 1 !! k
              = Some (rowFrom [] str1 (rev str2))).
      pose proof (fill_rows_lookup str1 str2 [] k) as Hk.
      change (length (@nil N)) with 0 in Hk. rewrite Hk by lia.
      rewrite <- Hlen, firstn_all. by rewrite app_nil_r. }
  rewrite Hrow. cbn [default from_option id].
  rewrite rowFrom_lookup by lia.
  by rewrite firstn_all, app_nil_r.
Qed.

Lemma editDistance_sym a : forall b, editDistance a b = editDistance b a.
Proof.
  induction a as [| x a IHa]; intros b.
  - by rewrite editDistance_nil_l, editDistance_nil_r.
  - induction b as [| y b IHb].
    + by rewrite editDistance_nil_l, editDistance_nil_r.
    + rewrite !editDistance_cons.
      rewrite (IHa (y :: b)), IHb, (IHa b), (N.eqb_sym x y). lia.
Qed.

Lemma editDistance_refl a : editDistance a a = 0.
Proof.
  induction a as [| x a IH]; [done |].
  rewrite editDistance_cons, IH, N.eqb_refl. lia.
Qed.

Lemma editDistance_zero a : forall b, editDistance a b = 0 -> a = b.
Proof.
  induction a as [| x a IH]; intros [| y b] Hz; try done.
  rewrite editDistance_cons in Hz.
  destruct (N.eqb_spec x y) as [-> | Hne]; [| lia].
  f_equal. apply IH. lia.
Qed.

Lemma editDistance_upper a :
  forall b, editDistance a b <= Nat.max (length a) (length b).
Proof.
  induction a as [| x a IH]; intros b.
  - rewrite editDistance_nil_l. lia.
  - destruct b as [| y b]; [rewrite editDistance_nil_r; lia |].
    rewrite editDistance_cons. pose proof (IH b). cbn [length].
    destruct (x =? y)%N; lia.
Qed.

Lemma editDistance_lower a :
  forall b,
    Nat.max (length a) (length b) - Nat.min (length a) (length b)
    <= editDistance a b.
Proof.
  induction a as [| x a IHa]; intros b.
  - rewrite editDistance_nil_l. cbn [length]. lia.
  - induction b as [| y b IHb].
    + rewrite editDistance_nil_r. cbn [length]. lia.
    + rewrite editDistance_cons.
      pose proof (IHa (y :: b)). pose proof (IHa b). cbn [length] in *.
      destruct (x =? y)%N; lia.
Qed.

Lemma levenshtein_zero (str1 str2 : jsstring) :
  levenshteinDistance str1 str2 = 0 <-> str1 = str2.
Proof.
  rewrite levenshteinDistance_editDistance. split.
  - intros Hz. apply editDistance_zero in Hz.
    by rewrite <- (rev_involutive str1), Hz, rev_involutive.
  - intros ->. apply editDistance_refl.
Qed.

Lemma levenshtein_sym (str1 str2 : jsstring) :
  levenshteinDistance str1 str2 = levenshteinDistance str2 str1.
Proof. rewrite !levenshteinDistance_editDistance. apply editDistance_sym. Qed.

Lemma levenshtein_bounds (str1 str2 : jsstring) :
  Nat.max (length str1) (length str2) - Nat.min (length str1) (length str2)
  <= levenshteinDistance str1 str2
  <= Nat.max (length str1) (length str2).
Proof.
  rewrite levenshteinDistance_editDistance.
  pose proof (editDistance_lower (rev str1) (rev str2)) as Hl.
  pose proof (editDistance_upper (rev str1) (rev str2)) as Hu.
  rewrite !length_rev in Hl, Hu. lia.
Qed.

(** X6: the edit distance of [levenshteinDistance] is 0 for equal strings
    and only for them. *)
Theorem levenshteinDistance_zero_iff (str1 str2 : jsstring) :
  levenshteinDistance str1 str2 = 0 <-> str1 = str2.
Proof. apply levenshtein_zero. Qed.

(** X7: [levenshteinDistance] does not depend on the order of its two
    arguments. *)
Theorem levenshteinDistance_symmetric (str1 str2 : jsstring) :
  levenshteinDistance str1 str2 = levenshteinDistance str2 str1.
Proof. apply levenshtein_sym. Qed.

(** X8: [levenshteinDistance] lies between the difference of the two
    lengths and the greater of the two lengths. *)
Theorem levenshteinDistance_bounds (str1 str2 : jsstring) :
  Nat.max (length str1) (length str2) - Nat.min (length str1) (length str2)
  <= levenshteinDistance str1 str2
  <= Nat.max (length str1) (length str2).
Proof. apply levenshtein_bounds. Qed.

Lemma editDistance_triangle a :
  forall b c, editDistance a c <= editDistance a b + editDistance b c.
Proof.
  induction a as [| x a IHa]; intros b c.
  - rewrite !editDistance_nil_l.
    pose proof (editDistance_lower b c). lia.
  - revert c. induction b as [| y b IHb]; intros c.
    + rewrite editDistance_nil_r, editDistance_nil_l.
      pose proof (editDistance_upper (x :: a) c). cbn [length] in *. lia.
    + induction c as [| z c IHc].
      * rewrite !editDistance_nil_r.
        pose proof (editDistance_lower (x :: a) (y :: b)). cbn [length] in *. lia.
      * pose proof (IHa (y :: b) (z :: c)) as H1.
        pose proof (IHa b (z :: c)) as H2.
        pose proof (IHa b c) as H3.
        pose proof (IHb (z :: c)) as H4.
        pose proof (IHb c) as H5.
        clear IHa IHb.
        rewrite ?editDistance_cons in *.
        destruct (N.eqb_spec x y), (N.eqb_spec y z), (N.eqb_spec x z);
          try congruence; lia.
Qed.

(** X9: [levenshteinDistance] satisfies the triangle inequality: going
    through a third string never makes the distance shorter. *)
Theorem levenshteinDistance_triangle (str1 str2 str3 : jsstring) :
  levenshteinDistance str1 str3
  <= levenshteinDistance str1 str2 + levenshteinDistance str2 str3.
Proof. rewrite !levenshteinDistance_editDistance. apply editDistance_triangle. Qed.

(** ** The similarity of two words *)

Lemma Zpos_of_nat (n : nat) : n <> 0 -> Z.pos (Pos.of_nat n) = Z.of_nat n.
Proof.
  intros Hn. rewrite <- positive_nat_Z. f_equal. by apply Nat2Pos.id.
Qed.

(** [getLevenshteinSimilarity] in terms of the greater length. *)
Lemma getLevenshteinSimilarity_value (str1 str2 : jsstring) :
  let n := Nat.max (length str1) (length str2) in
  getLevenshteinSimilarity str1 str2
  = if n =? 0 then 1%Q
    else ((Z.of_nat n - Z.of_nat (levenshteinDistance str1 str2))
            # Pos.of_nat n)%Q.
Proof.
  cbv zeta. unfold getLevenshteinSimilarity.
  destruct (Nat.ltb_spec (length str2) (length str1)) as [Hlt | Hge].
  - by rewrite Nat.max_l by lia.
  - rewrite Nat.max_r by lia.
    by rewrite (levenshtein_sym str2 str1).
Qed.

Lemma similarity_facts (str1 str2 : jsstring) :
  (0 <= getLevenshteinSimilarity str1 str2 <= 1)%Q
  /\ getLevenshteinSimilarity str1 str2 = getLevenshteinSimilarity str2 str1
  /\ (getLevenshteinSimilarity str1 str2 == 1 <-> str1 = str2)%Q.
Proof.
  pose proof (getLevenshteinSimilarity_value str1 str2) as Hv.
  pose proof (getLevenshteinSimilarity_value str2 str1) as Hv'.
  cbv zeta in Hv, Hv'.
  rewrite (levenshtein_sym str2 str1),
    (Nat.max_comm (length str2)) in Hv'.
  split; [| split].
  - rewrite Hv. pose proof (levenshtein_bounds str1 str2) as Hb.
    destruct (Nat.eqb_spec (Nat.max (length str1) (length str2)) 0)
      as [Hz | Hnz]; [done |].
    unfold Qle. cbn. rewrite (Zpos_of_nat _ Hnz). lia.
  - by rewrite Hv, Hv'.
  - rewrite Hv. pose proof (levenshtein_bounds str1 str2) as Hb.
    destruct (Nat.eqb_spec (Nat.max (length str1) (length str2)) 0)
      as [Hz | Hnz].
    + split; [| done]. intros _.
      destruct str1, str2; cbn in Hz; try lia. done.
    + unfold Qeq. cbn. rewrite (Zpos_of_nat _ Hnz).
      rewrite <- levenshtein_zero. lia.
Qed.

(** X10: the similarity of two words is a number between 0 and 1, it is
    the same in both directions, and it is 1 for equal words and only
    for them. *)
Theorem getLevenshteinSimilarity_range (str1 str2 : jsstring) :
  (0 <= getLevenshteinSimilarity str1 str2 <= 1)%Q
  /\ getLevenshteinSimilarity str1 str2 = getLevenshteinSimilarity str2 str1
  /\ (getLevenshteinSimilarity str1 str2 == 1 <-> str1 = str2)%Q.
Proof. apply similarity_facts. Qed.

(** ** More on the similarity of two names *)

(** X11: raising the threshold never makes two names similar: names
    similar at a threshold are similar at every lower threshold. *)
Theorem areNamesSimilar_threshold_monotone (name1 name2 : jsval) (t1 t2 : Q) :
  (t1 <= t2)%Q ->
  areNamesSimilar name1 name2 t2 = true ->
  areNamesSimilar name1 name2 t1 = true.
Proof.
  intros Ht. unfold areNamesSimilar.
  destruct name1 as [[| c1 s1] |], name2 as [[| c2 s2] |]; try done.
  destruct (bool_decide _); [done |].
  destruct (_ || _); [done |].
  rewrite !Qle_bool_iff. intros H2. by apply (Qle_trans _ t2).
Qed.

Lemma areNamesSimilar_threshold_monotone_witness :
  areNamesSimilar (Some (js "john smith")) (Some (js "john smyth")) (7 # 10)
  = true.
Proof.
  apply (areNamesSimilar_threshold_monotone _ _ (7 # 10) (95 # 100));
    by vm_compute.
Defined.

Lemma hasCloseWord_elem (word : jsstring) (words : list jsstring) :
  word ∈ words -> hasCloseWord word words = true.
Proof.
  induction 1 as [word words | word word' words Hin IH].
  - cbn. destruct (similarity_facts word word) as (_ & _ & Hone).
    assert (H1 : (getLevenshteinSimilarity word word == 1)%Q) by by apply Hone.
    destruct (Qle_bool (8 # 10) (getLevenshteinSimilarity word word)) eqn:Hle;
      [done |].
    exfalso. apply not_true_iff_false in Hle. apply Hle.
    apply Qle_bool_iff. rewrite H1. done.
  - cbn. rewrite IH. by destruct (Qle_bool _ _).
Qed.

Lemma countMatchingWords_all (words1 words2 : list jsstring) :
  (forall w, w ∈ words1 -> w ∈ words2) ->
  countMatchingWords words1 words2 = length words1.
Proof.
  induction words1 as [| w words1 IH]; intros Hall; [done |].
  cbn. rewrite hasCloseWord_elem by (apply Hall; by left).
  rewrite IH; [done |]. intros w' Hw'. apply Hall. by right.
Qed.

(** X12: two names are similar at every threshold up to 1 when each
    significant word (longer than 2) of the first is a significant word
    of the second and the second has no more significant words than the
    first; the order of the words and the words of one or two code units
    do not count. *)
Theorem areNamesSimilar_same_words (name1 name2 : jsstring) (t : Q) :
  significantWords name1 <> [] ->
  (forall w, w ∈ significantWords name1 -> w ∈ significantWords name2) ->
  length (significantWords name2) <= length (significantWords name1) ->
  (t <= 1)%Q ->
  areNamesSimilar (Some name1) (Some name2) t = true.
Proof.
  intros Hne Hall Hlen Ht.
  destruct name1 as [| c1 s1]; [done |].
  destruct name2 as [| c2 s2].
  { exfalso. destruct (significantWords (c1 :: s1)) as [| w ws] eqn:Hw; [done |].
    specialize (Hall w (list_elem_of_here _ _)). cbn in Hall.
    by apply elem_of_nil in Hall. }
  unfold areNamesSimilar. destruct (bool_decide _); [done |].
  set (words1 := significantWords (c1 :: s1)) in *.
  set (words2 := significantWords (c2 :: s2)) in *.
  assert (H1 : length words1 <> 0) by by destruct words1.
  assert (H2 : length words2 <> 0).
  { destruct words1 as [| w ws]; [done |].
    specialize (Hall w (list_elem_of_here _ _)).
    destruct words2; [by apply elem_of_nil in Hall | done]. }
  destruct (Nat.eqb_spec (length words1) 0); [done |].
  destruct (Nat.eqb_spec (length words2) 0); [done |]. cbn [orb].
  apply Qle_bool_iff. apply (Qle_trans _ 1); [done |].
  unfold wordSimilarity. rewrite (countMatchingWords_all _ _ Hall).
  unfold Qle. cbn [Qnum Qden]. rewrite Zpos_of_nat by lia. lia.
Qed.

Lemma areNamesSimilar_same_words_witness :
  areNamesSimilar (Some (js "hazari abhijit")) (Some (js "cg abhijit hazari"))
    (95 # 100) = true.
Proof.
  apply areNamesSimilar_same_words.
  - by vm_compute.
  - intros w Hw. vm_compute in Hw. vm_compute.
    apply elem_of_cons in Hw as [-> | Hw]; [by right; left |].
    apply list_elem_of_singleton in Hw as ->. by left.
  - vm_compute. lia.
  - by vm_compute.
Defined.

(** X13: a name without a significant word (every word has at most 2
    code units), like a name that is null or empty, is similar to a name
    only when the two are the same string that is not empty, whatever the
    threshold. *)
Theorem areNamesSimilar_short_words (name1 name2 : jsval) (t : Q) :
  significantWords (default [] name1) = []
  \/ significantWords (default [] name2) = [] ->
  (areNamesSimilar name1 name2 t = true
   <-> truthy name1 = true /\ name1 = name2).
Proof.
  intros Hshort. unfold areNamesSimilar.
  destruct name1 as [[| c1 s1] |], name2 as [[| c2 s2] |]; cbn [truthy];
    try (split; [done | by intros [? ?]]).
  change (default [] (Some (c1 :: s1))) with (c1 :: s1) in Hshort.
  change (default [] (Some (c2 :: s2))) with (c2 :: s2) in Hshort.
  destruct (bool_decide (c1 :: s1 = c2 :: s2)) eqn:Heq.
  - apply bool_decide_eq_true in Heq. split; [| done].
    intros _. split; [done | by rewrite Heq].
  - apply bool_decide_eq_false in Heq.
    assert (Hz : (length (significantWords (c1 :: s1)) =? 0)
                 || (length (significantWords (c2 :: s2)) =? 0) = true).
    { destruct Hshort as [-> | ->]; cbn; [done | by rewrite orb_true_r]. }
    rewrite Hz. split; [done |]. intros [_ [= H1 H2]]. by subst.
Qed.

Lemma areNamesSimilar_short_words_witness :
  areNamesSimilar (Some (js "li")) (Some (js "li wei")) (1 # 10) = true
  <-> truthy (Some (js "li")) = true /\ Some (js "li") = Some (js "li wei").
Proof. apply areNamesSimilar_short_words. left. reflexivity. Defined.

(** ** More on the inverted-index merge pass *)

(** The records are pushed on [merged] in the order of their indices. *)
Lemma origins_sorted_step contacts nameIndex k st :
  StronglySorted lt (origins st) /\ (forall i, i ∈ origins st -> i < k) ->
  let st' := processContact contacts nameIndex st k in
  StronglySorted lt (origins st') /\ (forall i, i ∈ origins st' -> i < S k).
Proof.
  intros [Hs Hb] st'. subst st'.
  destruct (processContact_cases contacts nameIndex st k)
    as [[-> _] | (current0 & js & Hstep)].
  - split; [done |]. intros i Hi. specialize (Hb i Hi). lia.
  - cbv zeta in Hstep. destruct Hstep as (_ & _ & _ & Ho & _).
    rewrite Ho. split.
    + apply StronglySorted_app_2; [| done | by repeat constructor].
      intros x1 x2 Hx1 Hx2. apply list_elem_of_singleton in Hx2 as ->.
      by apply Hb.
    + intros i Hi. apply elem_of_app in Hi as [Hi | Hi].
      * specialize (Hb i Hi). lia.
      * apply list_elem_of_singleton in Hi as ->. lia.
Qed.

Lemma origins_sorted contacts :
  StronglySorted lt (origins (mergeSimilarContactsFocused contacts)).
Proof.
  unfold mergeSimilarContactsFocused.
  apply (foldl_seq_invariant
    (fun k st => StronglySorted lt (origins st)
                 /\ (forall i, i ∈ origins st -> i < k))
    _ (length contacts) 0).
  - split; [constructor |]. intros i Hi. by apply elem_of_nil in Hi.
  - intros k st _. apply origins_sorted_step.
Qed.

(** X14: the pass emits the records in input order: the indices behind
    the output records increase strictly, and the record at an output
    position is the input record of that index with the candidates it
    absorbed folded in, in merge order. *)
Theorem merged_in_input_order (contacts : list Contact) :
  let st := mergeSimilarContactsFocused contacts in
  length (origins st) = length (merged st)
  /\ StronglySorted lt (origins st)
  /\ forall p i r,
       origins st !! p = Some i -> merged st !! p = Some r ->
       exists current0,
         contacts !! i = Some current0
         /\ r = foldAbsorb contacts current0 (absorbedBy i (mergeLog st)).
Proof.
  intros st.
  pose proof (mergeSimilarContactsFocused_inv contacts) as Hinv.
  fold st in Hinv. split_and!.
  - symmetry. apply (inv_length _ _ _ Hinv).
  - apply origins_sorted.
  - intros p i r Hp Hr.
    destruct (inv_group _ _ _ Hinv p i r Hp Hr) as (c0 & ? & ? & _).
    by exists c0.
Qed.

Lemma index_in_group contacts k st a :
  PassInv contacts k st -> a < k ->
  exists i, i ∈ origins st /\ (a = i \/ (i, a) ∈ mergeLog st).
Proof.
  intros Hinv Ha.
  pose proof (inv_done _ _ _ Hinv a Ha) as Hp.
  apply (inv_processed _ _ _ Hinv) in Hp as [Ho | Hs].
  - exists a. auto.
  - apply list_elem_of_fmap in Hs as ([i j] & -> & Hij).
    exists i. split; [| by right].
    by destruct (inv_log _ _ _ Hinv i j Hij).
Qed.

(** X15: the pass splits the input indices between the emitted and the
    absorbed ones: every index of the input is behind an output record or
    was absorbed, no index is both, and no index was absorbed twice. *)
Theorem merge_partition (contacts : list Contact) :
  let st := mergeSimilarContactsFocused contacts in
  NoDup (origins st ++ (snd <$> mergeLog st))
  /\ forall a, a ∈ origins st ++ (snd <$> mergeLog st) <-> a < length contacts.
Proof.
  intros st.
  pose proof (mergeSimilarContactsFocused_inv contacts) as Hinv.
  fold st in Hinv. split; [apply (inv_nodup _ _ _ Hinv) |].
  intros a. rewrite elem_of_app, <- (inv_processed _ _ _ Hinv). split.
  - apply (inv_bound _ _ _ Hinv).
  - apply (inv_done _ _ _ Hinv).
Qed.

(** X16: the pass loses no hard identifier: an e-mail carried by an input
    record is the e-mail of an output record, and a phone carried by an
    input record is the phone of an output record. *)
Theorem merge_keeps_identifiers (contacts : list Contact) (a : nat)
    (ca : Contact) :
  contacts !! a = Some ca ->
  let out := merged (mergeSimilarContactsFocused contacts) in
  (truthy (email ca) = true -> exists r, r ∈ out /\ email r = email ca)
  /\ (truthy (phone ca) = true -> exists r, r ∈ out /\ phone r = phone ca).
Proof.
  intros Hca out. subst out.
  pose proof (mergeSimilarContactsFocused_inv contacts) as Hinv.
  set (st := mergeSimilarContactsFocused contacts) in *.
  destruct (index_in_group _ _ _ a Hinv (lookup_lt_Some _ _ _ Hca))
    as (i & Hi & Ha).
  destruct (origin_record _ _ _ _ Hinv Hi)
    as (p & r & c0 & _ & Hr & Hc0 & -> & _).
  apply list_elem_of_lookup_2 in Hr.
  split; intros Ht; eexists; (split; [exact Hr |]).
  - apply (group_key_agree email contacts st (length contacts) i a ca c0);
      try done.
    intros c js. apply validFold_email.
  - apply (group_key_agree phone contacts st (length contacts) i a ca c0);
      try done.
    intros c js. apply validFold_phone.
Qed.

Lemma merge_keeps_identifiers_witness :
  exists r,
    r ∈ merged (mergeSimilarContactsFocused keeps_identifiers_sample)
    /\ email r = str "asha@x.com".
Proof.
  refine (proj1 (merge_keeps_identifiers keeps_identifiers_sample 1
                   (mkContact "N/A" "Asha Rao" "N/A" (str "asha@x.com")
                      (str "9876543210")) _) _);
    reflexivity.
Defined.

(** ** The name index *)

Lemma wordsOf_truthy contact word :
  word ∈ wordsOf contact -> truthy (getNameForComparison contact) = true.
Proof.
  unfold wordsOf. destruct (getNameForComparison contact) as [[| c s] |];
    [| done |]; cbn; intros H; by apply elem_of_nil in H.
Qed.

Lemma posting_insert_mono (nameIndex : gmap jsstring (list IndexEntry))
    entry word w e :
  e ∈ default [] (nameIndex !! w) ->
  e ∈ default []
        (<[word := default [] (nameIndex !! word) ++ [entry]]> nameIndex !! w).
Proof.
  intros He. destruct (decide (word = w)) as [-> | Hne].
  - rewrite lookup_insert_eq. cbn. apply elem_of_app. by left.
  - by rewrite lookup_insert_ne.
Qed.

Lemma posting_fold_mono entry words :
  forall (nameIndex : gmap jsstring (list IndexEntry)) w e,
    e ∈ default [] (nameIndex !! w) ->
    e ∈ default []
          (foldl (fun idx word =>
                    <[word := default [] (idx !! word) ++ [entry]]> idx)
             nameIndex words !! w).
Proof.
  induction words as [| word words IH]; intros nameIndex w e He; [done |].
  cbn [foldl]. apply IH. by apply posting_insert_mono.
Qed.

Lemma posting_fold_added entry words :
  forall (nameIndex : gmap jsstring (list IndexEntry)) w,
    w ∈ words ->
    entry ∈ default []
              (foldl (fun idx word =>
                        <[word := default [] (idx !! word) ++ [entry]]> idx)
                 nameIndex words !! w).
Proof.
  induction words as [| word words IH]; intros nameIndex w Hw.
  - by apply elem_of_nil in Hw.
  - cbn [foldl]. apply elem_of_cons in Hw as [-> | Hw]; [| by apply IH].
    apply posting_fold_mono. rewrite lookup_insert_eq. cbn.
    apply elem_of_app. right. by left.
Qed.

Lemma indexContact_mono nameIndex index contact w e :
  e ∈ default [] (nameIndex !! w) ->
  e ∈ default [] (indexContact nameIndex index contact !! w).
Proof.
  intros He. unfold indexContact.
  destruct (truthy (getNameForComparison contact)); [| done].
  by apply posting_fold_mono.
Qed.

Lemma indexContact_added nameIndex index contact word :
  word ∈ wordsOf contact ->
  exists entry,
    entry ∈ default [] (indexContact nameIndex index contact !! word)
    /\ e_index entry = index /\ e_contact entry = contact.
Proof.
  intros Hw. unfold indexContact. rewrite (wordsOf_truthy _ _ Hw).
  eexists. split; [by apply posting_fold_added |]. done.
Qed.

Lemma buildIndexFrom_mono rest :
  forall nameIndex index w e,
    e ∈ default [] (nameIndex !! w) ->
    e ∈ default [] (buildIndexFrom nameIndex index rest !! w).
Proof.
  induction rest as [| contact rest IH]; intros nameIndex index w e He; [done |].
  cbn. apply IH. by apply indexContact_mono.
Qed.

Lemma buildIndexFrom_complete rest :
  forall nameIndex index j contact word,
    rest !! j = Some contact -> word ∈ wordsOf contact ->
    exists entry,
      entry ∈ default [] (buildIndexFrom nameIndex index rest !! word)
      /\ e_index entry = index + j /\ e_contact entry = contact.
Proof.
  induction rest as [| c rest IH]; intros nameIndex index j contact word Hj Hw;
    [done |].
  destruct j as [| j]; cbn in Hj.
  - injection Hj as ->.
    destruct (indexContact_added nameIndex index contact word Hw)
      as (entry & He & Hi & Hc).
    exists entry. split_and!; [| lia | done].
    cbn. by apply buildIndexFrom_mono.
  - cbn. destruct (IH (indexContact nameIndex index c) (S index) j contact word
                     Hj Hw) as (entry & He & Hi & Hc).
    exists entry. split_and!; [done | lia | done].
Qed.

(** X17: the name index is exact: the posting list of a word holds the
    index of a record if and only if the word is a significant word of
    the normalized comparison name of that record. *)
Theorem buildIndex_exact (contacts : list Contact) (word : jsstring) (i : nat) :
  i ∈ (e_index <$> default [] (buildIndex contacts !! word))
  <-> exists contact, contacts !! i = Some contact /\ word ∈ wordsOf contact.
Proof.
  split.
  - intros Hi. apply list_elem_of_fmap in Hi as (entry & -> & Hentry).
    destruct (buildIndex contacts !! word) as [entries |] eqn:Hlook;
      [| by apply elem_of_nil in Hentry].
    apply (buildIndex_sound contacts word entries entry Hlook Hentry).
  - intros (contact & Hc & Hw).
    destruct (buildIndexFrom_complete contacts ∅ 0 i contact word Hc Hw)
      as (entry & He & Hi & _).
    apply list_elem_of_fmap. exists entry. split; [by rewrite Hi | done].
Qed.

(** ** Candidate lists without similar names *)

Lemma seq_sorted start n : StronglySorted lt (seq start n).
Proof.
  revert start. induction n as [| n IH]; intros start; [constructor |].
  cbn. constructor; [apply IH |].
  apply List.Forall_forall. intros x Hx. apply in_seq in Hx. lia.
Qed.

Lemma sorted_range (l : list nat) (n : nat) :
  StronglySorted lt l -> NoDup l -> (forall x, x ∈ l <-> x < n) ->
  l = seq 0 n.
Proof.
  intros Hs Hnd Hel.
  apply (StronglySorted_unique_strong lt); [| done | apply seq_sorted |].
  - intros x1 x2 _ _ H1 H2. lia.
  - apply NoDup_Permutation; [done | apply NoDup_seq |].
    intros x. rewrite Hel, elem_of_seq. lia.
Qed.

Lemma focused_no_similar_pair contacts :
  noSimilarPair contacts ->
  merged (mergeSimilarContactsFocused contacts) = contacts.
Proof.
  intros Hno.
  pose proof (mergeSimilarContactsFocused_inv contacts) as Hinv.
  pose proof (origins_sorted contacts) as Hsorted.
  set (st := mergeSimilarContactsFocused contacts) in *.
  assert (Hlog : mergeLog st = []).
  { destruct (mergeLog st) as [| [i j] log] eqn:Hl; [done |].
    assert (Hij : (i, j) ∈ mergeLog st) by (rewrite Hl; by left).
    destruct (inv_log _ _ _ Hinv i j Hij) as (_ & Hlt & _).
    destruct (merge_entry _ _ _ _ _ Hinv Hij) as (ci & cj & Hci & Hcj & _ & Hs).
    by rewrite (Hno i j ci cj Hlt Hci Hcj) in Hs. }
  assert (Horig : origins st = seq 0 (length contacts)).
  { pose proof (inv_nodup _ _ _ Hinv) as Hnd. rewrite Hlog in Hnd.
    cbn in Hnd. rewrite app_nil_r in Hnd.
    apply sorted_range; [done | done |].
    intros x. split.
    - intros Hx. apply (inv_bound _ _ _ Hinv), (inv_processed _ _ _ Hinv).
      by left.
    - intros Hx. apply (inv_done _ _ _ Hinv) in Hx.
      apply (inv_processed _ _ _ Hinv) in Hx as [Hx | Hx]; [done |].
      rewrite Hlog in Hx. by apply elem_of_nil in Hx. }
  pose proof (inv_length _ _ _ Hinv) as Hlen.
  rewrite Horig, length_seq in Hlen.
  apply list_eq. intros p.
  destruct (decide (p < length contacts)) as [Hp | Hp].
  - destruct (lookup_lt_is_Some_2 (merged st) p) as [r Hr]; [lia |].
    assert (Ho : origins st !! p = Some p).
    { rewrite Horig. by apply lookup_seq_lt. }
    destruct (inv_group _ _ _ Hinv p p r Ho Hr) as (c0 & Hc0 & -> & _).
    by rewrite Hr, Hc0, Hlog.
  - rewrite !lookup_ge_None_2 by lia. done.
Qed.

Lemma tryMergePairwise_skip contacts i ci done js :
  noSimilarPair contacts -> contacts !! i = Some ci ->
  Forall (fun j => i < j) js ->
  foldl (tryMergePairwise contacts) (ci, done) js = (ci, done).
Proof.
  intros Hno Hci. induction 1 as [| j js Hj Hjs IH]; [done |].
  cbn [foldl]. replace (tryMergePairwise contacts (ci, done) j) with (ci, done);
    [exact IH |].
  unfold tryMergePairwise.
  destruct (bool_decide (j ∈ done)); [done |].
  destruct (contacts !! j) as [cj |] eqn:Hcj; [| done].
  destruct (conflicting (email ci) (email cj)); [done |].
  destruct (conflicting (phone ci) (phone cj)); [done |].
  rewrite (Hno i j ci cj Hj Hci Hcj). by rewrite andb_false_r.
Qed.

Lemma pairwise_no_similar_pair contacts :
  noSimilarPair contacts -> mergeSimilarContacts contacts = contacts.
Proof.
  intros Hno. unfold mergeSimilarContacts.
  assert (Hinv : let st := foldl (processContactPairwise contacts) ([], ∅)
                             (seq 0 (length contacts)) in
                 st.1 = take (0 + length contacts) contacts
                 /\ forall x, x ∈ st.2 <-> x < 0 + length contacts).
  { apply (foldl_seq_invariant
      (fun k (st : list Contact * gset nat) =>
         st.1 = take k contacts /\ forall x, x ∈ st.2 <-> x < k)
      _ (length contacts) 0).
    - split; [done |]. intros x. split; [set_solver | lia].
    - intros k [out done] Hk [Hout Hdone]. cbn in Hout, Hdone.
      unfold processContactPairwise.
      destruct (bool_decide (k ∈ done)) eqn:Hin.
      { apply bool_decide_eq_true, Hdone in Hin. lia. }
      destruct (lookup_lt_is_Some_2 contacts k) as [ck Hck]; [lia |].
      rewrite Hck.
      rewrite (tryMergePairwise_skip contacts k ck _ _ Hno Hck).
      + cbn. split.
        * rewrite Hout. symmetry. by apply take_S_r.
        * intros x. rewrite elem_of_union, elem_of_singleton, Hdone. lia.
      + apply List.Forall_forall. intros j Hj. apply in_seq in Hj. lia. }
  cbv zeta in Hinv. destruct Hinv as [-> _]. cbn. apply firstn_all.
Qed.

(** X18: on a candidate list in which no later record has a name similar
    to the name of an earlier record, the inverted-index pass and the
    exhaustive pass both return the list as it is, so on such lists the
    two passes agree. *)
Theorem passes_keep_dissimilar_records (contacts : list Contact) :
  noSimilarPair contacts ->
  merged (mergeSimilarContactsFocused contacts) = contacts
  /\ mergeSimilarContacts contacts = contacts.
Proof.
  intros Hno. split.
  - by apply focused_no_similar_pair.
  - by apply pairwise_no_similar_pair.
Qed.

Lemma passes_keep_dissimilar_records_witness :
  merged (mergeSimilarContactsFocused dissimilar_sample) = dissimilar_sample
  /\ mergeSimilarContacts dissimilar_sample = dissimilar_sample.
Proof.
  apply passes_keep_dissimilar_records.
  intros [| [| [| i]]] [| [| [| j]]] ci cj Hlt Hi Hj;
    try lia; try done; cbn in Hi, Hj;
    injection Hi as <-; injection Hj as <-; reflexivity.
Defined.

(** ** E-mail extraction *)

Example extractEmail_samples :
  extractEmail toLowerCase (Some (js "John <john@x.com>")) = Some (js "john@x.com")
  /\ extractEmail toLowerCase (Some (js "not-an-email")) = None
  /\ extractEmail toLowerCase (Some (js "JOHN@X.COM")) = Some (js "john@x.com")
  /\ extractEmail toLowerCase (Some (js "a@b.c.de.f")) = Some (js "a@b.c.de")
  /\ extractEmail toLowerCase (Some (js " Me@Home ")) = Some (js "me@home").
Proof. repeat split; by vm_compute. Qed.

Lemma starClass_sound p s k r :
  starClass p s k = Some r ->
  exists a rest, s = a ++ rest /\ Forall (fun c => p c = true) a /\ k rest = Some r.
Proof.
  induction s as [| c s IH]; cbn.
  - intros Hk. by exists [], [].
  - destruct (p c) eqn:Hc.
    + destruct (starClass p s k) as [r' |] eqn:Hs.
      * intros [= ->]. destruct (IH eq_refl) as (a & rest & -> & Ha & Hk).
        exists (c :: a), rest. split_and!; [done | by constructor | done].
      * intros Hk. by exists [], (c :: s).
    + intros Hk. by exists [], (c :: s).
Qed.

Lemma plusClass_sound p s k r :
  plusClass p s k = Some r ->
  exists a rest,
    s = a ++ rest /\ a <> [] /\ Forall (fun c => p c = true) a /\ k rest = Some r.
Proof.
  destruct s as [| c s]; cbn; [done |].
  destruct (p c) eqn:Hc; [| done]. intros Hs.
  apply starClass_sound in Hs as (a & rest & -> & Ha & Hk).
  exists (c :: a), rest. split_and!; [done | done | by constructor | done].
Qed.

Lemma atLeast2_sound p s k r :
  atLeast2 p s k = Some r ->
  exists a rest,
    s = a ++ rest /\ 2 <= length a /\ Forall (fun c => p c = true) a
    /\ k rest = Some r.
Proof.
  destruct s as [| c1 [| c2 s]]; cbn; [done | done |].
  destruct (p c1) eqn:H1, (p c2) eqn:H2; cbn; try done. intros Hs.
  apply starClass_sound in Hs as (a & rest & -> & Ha & Hk).
  exists (c1 :: c2 :: a), rest.
  split_and!; [done | cbn; lia | by repeat constructor | done].
Qed.

Lemma unit_sound c s k r :
  unit c s k = Some r -> exists rest, s = c :: rest /\ k rest = Some r.
Proof.
  destruct s as [| d s]; cbn; [done |].
  destruct (N.eqb_spec d c) as [-> |]; [| done]. intros Hk. by exists s.
Qed.

Lemma emailAt_sound s rest :
  emailAt s = Some rest -> exists m, s = m ++ rest /\ emailShape m.
Proof.
  unfold emailAt. intros H.
  apply plusClass_sound in H as (l & s1 & -> & Hl & Hlc & H).
  apply unit_sound in H as (s2 & -> & H).
  apply plusClass_sound in H as (d & s3 & -> & Hd & Hdc & H).
  apply unit_sound in H as (s4 & -> & H).
  apply atLeast2_sound in H as (t & s5 & -> & Ht & Htc & [= ->]).
  exists (l ++ AT :: d ++ DOT :: t). split.
  - rewrite <- !app_assoc. cbn. by rewrite <- !app_assoc.
  - by exists l, d, t.
Qed.

Lemma emailMatch_unfold s :
  emailMatch s
  = match emailAt s with
    | Some rest => Some (take (length s - length rest) s)
    | None =>
        match s with
        | [] => None
        | _ :: s' => emailMatch s'
        end
    end.
Proof. by destruct s. Qed.

Lemma emailMatch_sound s m :
  emailMatch s = Some m ->
  emailShape m /\ exists before after, s = before ++ m ++ after.
Proof.
  induction s as [| c s IH]; rewrite emailMatch_unfold.
  - destruct (emailAt []) as [rest |] eqn:Hat; [| done].
    apply emailAt_sound in Hat as (m' & Heq & Hshape).
    symmetry in Heq. apply app_eq_nil in Heq as [-> ->].
    destruct Hshape as (l & d & t & Hm & _). by destruct l.
  - destruct (emailAt (c :: s)) as [rest |] eqn:Hat.
    + apply emailAt_sound in Hat as (m' & Heq & Hshape).
      rewrite Heq, length_app.
      replace (length m' + length rest - length rest) with (length m') by lia.
      rewrite take_app_length. intros [= <-].
      split; [done |]. by exists [], rest.
    + intros Hm. destruct (IH Hm) as (Hshape & before & after & ->).
      split; [done |]. by exists (c :: before), after.
Qed.

Lemma emailShape_at m : emailShape m -> AT ∈ m.
Proof.
  intros (l & d & t & -> & _). apply elem_of_app. right. by left.
Qed.

Lemma includesAt_elem s : includesAt s = true <-> AT ∈ s.
Proof.
  unfold includesAt. rewrite existsb_exists. split.
  - intros (c & Hin & Hc). apply N.eqb_eq in Hc as <-.
    by apply list_elem_of_In.
  - intros Hin. exists AT. split; [by apply list_elem_of_In | apply N.eqb_refl].
Qed.

(** X19: [extractEmail] returns [null] exactly for an address that is
    null or empty or holds no [@]; an address with an [@] always yields a
    string, by the pattern or by the fallback. *)
Theorem extractEmail_null_iff (hostLower : jsstring -> jsstring)
    (address : jsval) :
  extractEmail hostLower address = None
  <-> truthy address = false \/ includesAt (default [] address) = false.
Proof.
  unfold extractEmail. destruct (truthy address) eqn:Ht; cbn [negb].
  - destruct (emailMatch (default [] address)) as [m |] eqn:Hm.
    + split; [done |]. intros [? | Hno]; [done |].
      apply emailMatch_sound in Hm as (Hshape & before & after & Heq).
      apply not_true_iff_false in Hno. exfalso. apply Hno.
      apply includesAt_elem. rewrite Heq.
      apply elem_of_app. right. apply elem_of_app. left.
      by apply emailShape_at.
    + destruct (includesAt (default [] address)); split; try done.
      * intros [? | ?]; done.
      * intros _. by right.
  - split; [by left | done].
Qed.

Ltac email_units :=
  unfold is_local, is_domain, is_letter, is_upper, is_lower, is_digit,
    is_space, AT, DOT in *;
  rewrite ?orb_true_iff, ?andb_true_iff, ?N.leb_le, ?N.eqb_eq in *.

Lemma letter_domain c : is_letter c = true -> is_domain c = true.
Proof. intros H. email_units. tauto. Qed.

Lemma domain_local c : is_domain c = true -> is_local c = true.
Proof. intros H. email_units. tauto. Qed.

Lemma local_ascii c : is_local c = true -> (c < 128)%N.
Proof. intros H. email_units. lia. Qed.

Lemma local_not_space c : is_local c = true -> is_space c = false.
Proof.
  intros H. apply not_true_iff_false. intros Hs. email_units. lia.
Qed.

Lemma local_not_at c : is_local c = true -> c <> AT.
Proof. intros H ->. email_units. lia. Qed.

Lemma letter_not_dot c : is_letter c = true -> c <> DOT.
Proof. intros H ->. email_units. lia. Qed.

Lemma lower_unit_cases c :
  (is_upper c = true /\ lower_unit c = (c + 32)%N)
  \/ (is_upper c = false /\ lower_unit c = c).
Proof. unfold lower_unit. destruct (is_upper c); auto. Qed.

Lemma lower_unit_not_upper c : is_upper (lower_unit c) = false.
Proof.
  destruct (lower_unit_cases c) as [[Hu ->] | [Hu ->]]; [| done].
  apply lower_not_upper. by apply upper_lowered.
Qed.

Lemma lower_unit_letter c : is_letter c = true -> is_letter (lower_unit c) = true.
Proof.
  intros H. destruct (lower_unit_cases c) as [[Hu ->] | [Hu ->]]; [| done].
  unfold is_letter. rewrite (upper_lowered _ Hu). apply orb_true_r.
Qed.

Lemma lower_unit_domain c : is_domain c = true -> is_domain (lower_unit c) = true.
Proof.
  intros H. destruct (lower_unit_cases c) as [[Hu ->] | [Hu ->]]; [| done].
  apply letter_domain. unfold is_letter. rewrite (upper_lowered _ Hu).
  apply orb_true_r.
Qed.

Lemma lower_unit_local c : is_local c = true -> is_local (lower_unit c) = true.
Proof.
  intros H. destruct (lower_unit_cases c) as [[Hu ->] | [Hu ->]]; [| done].
  apply domain_local, letter_domain. unfold is_letter.
  rewrite (upper_lowered _ Hu). apply orb_true_r.
Qed.

Lemma toLowerCase_app a b : toLowerCase (a ++ b) = toLowerCase a ++ toLowerCase b.
Proof. unfold toLowerCase. apply List.map_app. Qed.

Lemma Forall_toLowerCase (P Q : N -> Prop) s :
  (forall c, P c -> Q (lower_unit c)) -> Forall P s -> Forall Q (toLowerCase s).
Proof.
  intros HPQ. induction 1 as [| c s Hc Hs IH]; [constructor |].
  cbn. constructor; [by apply HPQ | exact IH].
Qed.

(** Lowering a string of the shape of the pattern keeps the shape. *)
Lemma emailShape_lower m : emailShape m -> emailShape (toLowerCase m).
Proof.
  intros (l & d & t & -> & Hl & Hlc & Hd & Hdc & Ht & Htc).
  exists (toLowerCase l), (toLowerCase d), (toLowerCase t). split_and!.
  - rewrite toLowerCase_app. cbn. f_equal. f_equal.
    fold (toLowerCase (d ++ DOT :: t)). by rewrite toLowerCase_app.
  - by destruct l.
  - eapply Forall_toLowerCase; [| exact Hlc]. apply lower_unit_local.
  - by destruct d.
  - eapply Forall_toLowerCase; [| exact Hdc]. apply lower_unit_domain.
  - unfold toLowerCase. by rewrite length_map.
  - eapply Forall_toLowerCase; [| exact Htc]. apply lower_unit_letter.
Qed.

Lemma emailShape_local m :
  emailShape m -> Forall (fun c => is_local c = true \/ c = AT) m.
Proof.
  intros (l & d & t & -> & _ & Hlc & _ & Hdc & _ & Htc).
  apply Forall_app. split.
  - eapply List.Forall_impl; [| exact Hlc]. cbv beta. auto.
  - constructor; [by right |]. apply Forall_app. split.
    + eapply List.Forall_impl; [| exact Hdc]. intros c Hc. left.
      by apply domain_local.
    + constructor; [by left |].
      eapply List.Forall_impl; [| exact Htc]. intros c Hc. left.
      by apply domain_local, letter_domain.
Qed.

Lemma emailShape_ascii m : emailShape m -> Forall (fun c => (c < 128)%N) m.
Proof.
  intros Hm. eapply List.Forall_impl; [| exact (emailShape_local m Hm)].
  intros c [Hc | ->]; [by apply local_ascii | done].
Qed.

Lemma emailShape_trim m : emailShape m -> trim m = m.
Proof.
  intros Hm. pose proof (emailShape_local m Hm) as Hloc.
  assert (Hns : spaceless m).
  { eapply List.Forall_impl; [| exact Hloc].
    intros c [Hc | ->]; [by apply local_not_space | done]. }
  apply trim_id; apply spaceless_head_ok; [done | by apply Forall_rev].
Qed.

Lemma emailShape_lowered_id m :
  emailShape m -> Forall (fun c => is_upper c = false) m -> toLowerCase m = m.
Proof.
  intros _. induction 1 as [| c s Hc Hs IH]; [done |].
  cbn. fold (toLowerCase s). rewrite IH. unfold lower_unit. by rewrite Hc.
Qed.

Lemma toLowerCase_not_upper s : Forall (fun c => is_upper c = false) (toLowerCase s).
Proof.
  induction s as [| c s IH]; [constructor |].
  cbn. constructor; [apply lower_unit_not_upper | exact IH].
Qed.

Lemma starClass_complete p a rest k :
  Forall (fun c => p c = true) a -> is_Some (k rest) ->
  is_Some (starClass p (a ++ rest) k).
Proof.
  intros Ha Hk. induction Ha as [| c a Hc Ha IH].
  - destruct rest as [| c rest]; cbn; [done |].
    destruct (p c); [| done]. by destruct (starClass p rest k).
  - cbn. rewrite Hc. by destruct IH as [r ->].
Qed.

Lemma plusClass_complete p a rest k :
  a <> [] -> Forall (fun c => p c = true) a -> is_Some (k rest) ->
  is_Some (plusClass p (a ++ rest) k).
Proof.
  intros Hne Ha Hk. destruct Ha as [| c a Hc Ha]; [done |].
  cbn. rewrite Hc. by apply starClass_complete.
Qed.

Lemma atLeast2_complete p a rest k :
  2 <= length a -> Forall (fun c => p c = true) a -> is_Some (k rest) ->
  is_Some (atLeast2 p (a ++ rest) k).
Proof.
  intros Hlen Ha Hk.
  destruct Ha as [| c1 a H1 Ha]; [cbn in Hlen; lia |].
  destruct Ha as [| c2 a H2 Ha]; [cbn in Hlen; lia |].
  cbn. rewrite H1, H2. cbn. by apply starClass_complete.
Qed.

Lemma emailAt_complete m after : emailShape m -> is_Some (emailAt (m ++ after)).
Proof.
  intros (l & d & t & -> & Hl & Hlc & Hd & Hdc & Ht & Htc).
  unfold emailAt. rewrite <- app_assoc.
  apply plusClass_complete; [done | done |].
  cbn [app unit]. rewrite N.eqb_refl. rewrite <- app_assoc.
  apply plusClass_complete; [done | done |].
  cbn [app unit]. rewrite N.eqb_refl.
  apply atLeast2_complete; done.
Qed.

(** The pattern finds a match in every string that has a part of its
    shape. *)
Lemma emailMatch_complete before m after :
  emailShape m -> is_Some (emailMatch (before ++ m ++ after)).
Proof.
  intros Hm. induction before as [| c before IH].
  - rewrite emailMatch_unfold. cbn [app].
    by destruct (emailAt_complete m after Hm) as [rest ->].
  - rewrite emailMatch_unfold. cbn [app].
    destruct (emailAt _); [done | exact IH].
Qed.

Lemma starClass_all p a :
  Forall (fun c => p c = true) a -> starClass p a Some = Some [].
Proof. induction 1 as [| c a Hc Ha IH]; [done |]. cbn. by rewrite Hc, IH. Qed.

(** A greedy [X*] that stops at a code unit outside the class hands the
    rest over when the rest of the pattern matches there. *)
Lemma starClass_greedy p a c rest k r :
  Forall (fun c => p c = true) a -> p c = false ->
  k (c :: rest) = Some r ->
  starClass p (a ++ c :: rest) k = Some r.
Proof.
  intros Ha Hc Hk. induction Ha as [| x a Hx Ha IH].
  - cbn. by rewrite Hc.
  - cbn. by rewrite Hx, IH.
Qed.

Lemma starClass_none p a k :
  Forall (fun c => p c = true) a ->
  (forall b1 b2, a = b1 ++ b2 -> k b2 = None) ->
  starClass p a k = None.
Proof.
  induction 1 as [| c a Hc Ha IH]; intros Hk.
  - cbn. by apply (Hk [] []).
  - cbn. rewrite Hc, IH.
    + by apply (Hk [] (c :: a)).
    + intros b1 b2 ->. by apply (Hk (c :: b1) b2).
Qed.

(** A greedy [X*] on a string of the class gives code units back until
    the rest of the pattern matches. *)
Lemma starClass_backtrack p a1 a2 k r :
  Forall (fun c => p c = true) a1 -> Forall (fun c => p c = true) a2 ->
  (forall b1 b2, a2 = b1 ++ b2 -> b1 <> [] -> k b2 = None) ->
  k a2 = Some r ->
  starClass p (a1 ++ a2) k = Some r.
Proof.
  intros H1 H2 Hfail Hk.
  assert (H0 : starClass p a2 k = Some r).
  { destruct H2 as [| c a2 Hc H2]; [done |].
    cbn. rewrite Hc, (starClass_none p a2 k H2); [done |].
    intros b1 b2 ->. by apply (Hfail (c :: b1) b2). }
  induction H1 as [| x a1 Hx H1 IH]; [done |].
  cbn. by rewrite Hx, IH.
Qed.

(** On a string of the shape of the pattern, the pattern matches the
    whole string. *)
Lemma emailAt_whole m : emailShape m -> emailAt m = Some [].
Proof.
  intros (l & d & t & -> & Hl & Hlc & Hd & Hdc & Ht & Htc).
  destruct Hlc as [| l0 l Hl0 Hlc]; [done |].
  destruct Hdc as [| d0 d Hd0 Hdc]; [done |].
  destruct Htc as [| t1 t Ht1 Htc]; [cbn in Ht; lia |].
  destruct Htc as [| t2 t Ht2 Htc]; [cbn in Ht; lia |].
  unfold emailAt. cbn [app plusClass]. rewrite Hl0.
  apply starClass_greedy; [done | |].
  { apply not_true_iff_false. intros H. by apply local_not_at in H. }
  cbn [unit]. rewrite N.eqb_refl. cbn [app plusClass]. rewrite Hd0.
  assert (Htl : Forall (fun c => is_letter c = true) (t1 :: t2 :: t))
    by by repeat constructor.
  apply starClass_backtrack.
  - done.
  - constructor; [done |].
    eapply List.Forall_impl; [| exact Htl]. apply letter_domain.
  - intros b1 b2 Heq Hne.
    destruct b1 as [| x b1]; [done |]. injection Heq as _ Heq.
    destruct b2 as [| y b2]; [done |]. cbn [unit].
    destruct (N.eqb_spec y DOT) as [-> |]; [| done].
    exfalso. rewrite List.Forall_forall in Htl.
    apply (letter_not_dot DOT); [| done]. apply Htl. rewrite Heq.
    apply in_or_app. right. by left.
  - cbn [unit]. rewrite N.eqb_refl. cbn [atLeast2]. rewrite Ht1, Ht2.
    cbn [andb]. by apply starClass_all.
Qed.

Lemma emailMatch_whole m : emailShape m -> emailMatch m = Some m.
Proof.
  intros Hm. rewrite emailMatch_unfold, (emailAt_whole m Hm).
  cbn [length]. by rewrite Nat.sub_0_r, firstn_all.
Qed.

Section HostLower.
Variable hostLower : jsstring -> jsstring.

(** On ASCII strings the lowering of the host is the lowering of A-Z. *)
Hypothesis hostLower_ascii : forall s,
  Forall (fun c => (c < 128)%N) s -> hostLower s = toLowerCase s.

Lemma extractEmail_matched address m :
  emailMatch address = Some m ->
  extractEmail hostLower (Some address) = Some (toLowerCase m).
Proof.
  intros Hm. pose proof (emailMatch_sound _ _ Hm) as [Hshape _].
  unfold extractEmail.
  assert (Ht : truthy (Some address) = true).
  { destruct address; [| done]. by rewrite emailMatch_unfold in Hm. }
  rewrite Ht. cbn [negb]. change (default [] (Some address)) with address.
  rewrite Hm, (hostLower_ascii m (emailShape_ascii m Hshape)).
  by rewrite (emailShape_trim _ (emailShape_lower m Hshape)).
Qed.

(** X20: when the address has a part of the shape local@domain.tld, the
    fallback is not taken: [extractEmail] returns a part of the address of
    that shape, lowered, which has that shape too and no letter A-Z. *)
Theorem extractEmail_wellformed (address before m after : jsstring) :
  emailShape m -> address = before ++ m ++ after ->
  exists m' before' after',
    extractEmail hostLower (Some address) = Some (toLowerCase m')
    /\ address = before' ++ m' ++ after'
    /\ emailShape m'
    /\ emailShape (toLowerCase m')
    /\ Forall (fun c => is_upper c = false) (toLowerCase m').
Proof.
  intros Hm ->.
  destruct (emailMatch_complete before m after Hm) as [m' Hm'].
  destruct (emailMatch_sound _ _ Hm') as (Hshape & before' & after' & Heq).
  exists m', before', after'. split_and!.
  - by apply extractEmail_matched.
  - done.
  - done.
  - by apply emailShape_lower.
  - apply toLowerCase_not_upper.
Qed.

(** X21: on an address with a part of the shape local@domain.tld,
    [extractEmail] is idempotent: extracting from its result gives the
    result. *)
Theorem extractEmail_idempotent (address before m after : jsstring) :
  emailShape m -> address = before ++ m ++ after ->
  extractEmail hostLower (extractEmail hostLower (Some address))
  = extractEmail hostLower (Some address).
Proof.
  intros Hm ->.
  destruct (emailMatch_complete before m after Hm) as [m' Hm'].
  destruct (emailMatch_sound _ _ Hm') as (Hshape & _).
  rewrite (extractEmail_matched _ _ Hm').
  pose proof (emailShape_lower m' Hshape) as Hlow.
  rewrite (extractEmail_matched _ _ (emailMatch_whole _ Hlow)).
  f_equal. apply emailShape_lowered_id; [done | apply toLowerCase_not_upper].
Qed.

End HostLower.

Lemma wrapped_address_shape : emailShape (js "John.Doe@Mail.Example.COM").
Proof.
  exists (js "John.Doe"), (js "Mail.Example"), (js "COM").
  split_and!; try done; try (cbn; lia);
    apply List.Forall_forall; intros c Hc; cbn in Hc;
    repeat (destruct Hc as [<- | Hc]; [reflexivity |]); destruct Hc.
Qed.

Lemma extractEmail_wellformed_witness :
  exists m' before' after',
    extractEmail toLowerCase (Some wrapped_address) = Some (toLowerCase m')
    /\ wrapped_address = before' ++ m' ++ after'
    /\ emailShape m'
    /\ emailShape (toLowerCase m')
    /\ Forall (fun c => is_upper c = false) (toLowerCase m').
Proof.
  apply (extractEmail_wellformed toLowerCase (fun s _ => eq_refl)
           wrapped_address (js "John Doe <") (js "John.Doe@Mail.Example.COM")
           (js ">")).
  - exact wrapped_address_shape.
  - reflexivity.
Defined.

Lemma extractEmail_idempotent_witness :
  extractEmail toLowerCase (extractEmail toLowerCase (Some wrapped_address))
  = extractEmail toLowerCase (Some wrapped_address).
Proof.
  apply (extractEmail_idempotent toLowerCase (fun s _ => eq_refl)
           wrapped_address (js "John Doe <") (js "John.Doe@Mail.Example.COM")
           (js ">")).
  - exact wrapped_address_shape.
  - reflexivity.
Defined.

(** ** Source adapters *)

Example adapters_samples :
  List.map (fun c => (raw_original_name c, raw_email c))
    (processEmailRecord toLowerCase (js "email_inbox") mail_record)
  = [(js "Jane Doe", str "jane@x.com"); (js "Amy Wong", str "amy@x.com");
     (js "Carl", str "carl@x.com")]
  /\ List.map (fun c => (raw_original_name c, raw_phone c))
       (processPhonebookRecord toLowerCase phonebook_record)
     = [(js "Jane D.", str "9876543210")]
  /\ List.map (fun c => (raw_original_name c, raw_email c))
       (processLinkedInCSV toLowerCase linkedin_records)
     = [(js "Amy Wong", None); (js "Bob", None)].
Proof. repeat split; by vm_compute. Qed.

Lemma processNameAndAddress_falsy hostLower source name address :
  truthy name = false \/ truthy address = false ->
  processNameAndAddress hostLower source name address = [].
Proof.
  unfold processNameAndAddress. intros [-> | ->]; [done |].
  by rewrite andb_false_r.
Qed.

Lemma trimmedAt_cons x l i : trimmedAt (x :: l) (S i) = trimmedAt l i.
Proof. reflexivity. Qed.

Lemma trimmedAt_head x l : trimmedAt (x :: l) 0 = Some (trim x).
Proof. unfold trimmedAt. cbn. by destruct x. Qed.

Lemma trimmedAt_nil i : trimmedAt [] i = Some [].
Proof. unfold trimmedAt. by rewrite lookup_nil. Qed.

Lemma flat_map_seq_shift {B} (g : nat -> list B) start n :
  flat_map g (seq (S start) n) = flat_map (fun i => g (S i)) (seq start n).
Proof.
  revert start. induction n as [| n IH]; intros start; [done |].
  cbn. by rewrite IH.
Qed.

Lemma flat_map_nil {A B} (g : A -> list B) l :
  (forall x, g x = []) -> flat_map g l = [].
Proof.
  intros Hg. induction l as [| x l IH]; [done |]. cbn. by rewrite Hg, IH.
Qed.

(** X22: the loop over a To or CC list pairs the names and the addresses
    by position: it yields the contacts of the pairs (name, address) of
    the two lists zipped, each trimmed, in order; the positions past the
    end of the shorter list yield nothing. *)
Theorem processAddressList_zip (hostLower : jsstring -> jsstring)
    (source : jsstring) (names addresses : list jsstring) :
  processAddressList hostLower source names addresses
  = flat_map (fun pair =>
                processNameAndAddress hostLower source
                  (Some (trim pair.1)) (Some (trim pair.2)))
      (zip names addresses).
Proof.
  unfold processAddressList. revert addresses.
  induction names as [| n names IH]; intros addresses.
  - cbn [zip zip_with flat_map]. apply flat_map_nil. intros i.
    apply processNameAndAddress_falsy. left. by rewrite trimmedAt_nil.
  - destruct addresses as [| a addresses].
    + cbn [zip zip_with flat_map]. apply flat_map_nil. intros i.
      apply processNameAndAddress_falsy. right. by rewrite trimmedAt_nil.
    + cbn [length]. rewrite <- Nat.succ_max_distr.
      cbn [seq flat_map zip zip_with]. rewrite !trimmedAt_head.
      f_equal. rewrite flat_map_seq_shift.
      rewrite <- (IH addresses). apply flat_map_ext. intros i.
      by rewrite !trimmedAt_cons.
Qed.

Lemma linkedIn_before_header hostLower records :
  Forall (fun r => isLinkedInHeader r = false) records ->
  foldl (processLinkedInRecord hostLower) (false, []) records = (false, []).
Proof.
  induction 1 as [| r records Hr Hrs IH]; [done |].
  cbn. by rewrite Hr.
Qed.

Lemma linkedIn_after_header hostLower records :
  forall contacts,
    foldl (processLinkedInRecord hostLower) (true, contacts) records
    = (true, contacts ++ flat_map (linkedInContact hostLower) records).
Proof.
  induction records as [| r records IH]; intros contacts.
  - cbn. by rewrite app_nil_r.
  - cbn [foldl processLinkedInRecord negb flat_map]. rewrite IH.
    by rewrite <- app_assoc.
Qed.

(** X23: [processLinkedInCSV] takes contacts from the rows after the
    first header row only: the rows before it and the header row itself
    yield nothing, every later row is read as a data row (a later header
    row too), and an export without a header row yields no contact at
    all. *)
Theorem processLinkedInCSV_after_header (hostLower : jsstring -> jsstring)
    (before rest : list (list jsstring)) (header : list jsstring) :
  Forall (fun r => isLinkedInHeader r = false) before ->
  (processLinkedInCSV hostLower before = [])
  /\ (isLinkedInHeader header = true ->
      processLinkedInCSV hostLower (before ++ header :: rest)
      = flat_map (linkedInContact hostLower) rest).
Proof.
  intros Hbefore. unfold processLinkedInCSV. split.
  - by rewrite linkedIn_before_header.
  - intros Hheader.
    rewrite foldl_app, linkedIn_before_header by done.
    cbn [foldl processLinkedInRecord negb]. rewrite Hheader.
    by rewrite linkedIn_after_header.
Qed.

Lemma processLinkedInCSV_after_header_witness :
  processLinkedInCSV toLowerCase (take 2 linkedin_records) = []
  /\ processLinkedInCSV toLowerCase linkedin_records
     = flat_map (linkedInContact toLowerCase) (drop 3 linkedin_records).
Proof.
  destruct (processLinkedInCSV_after_header toLowerCase
              (take 2 linkedin_records) (drop 3 linkedin_records)
              [js "First Name"; js "Last Name"; js "URL"; js "Email Address"])
    as [H1 H2].
  - by repeat constructor.
  - split; [exact H1 |]. by apply H2.
Defined.

(** X24: a contact of the phone-book adapter has an e-mail or a phone, its
    phone, when it has one, is a canonical number of 10 or 12 digits, and
    of the three name slots it carries the phone-book one only, equal to
    its name. *)
Theorem processPhonebookCSV_admits (hostLower : jsstring -> jsstring)
    (records : list (gmap jsstring jsstring)) (c : RawContact) :
  In c (processPhonebookCSV hostLower records) ->
  (truthy (raw_email c) = true \/ truthy (raw_phone c) = true)
  /\ (forall p, raw_phone c = Some p ->
        Forall (fun d => is_digit d = true) p
        /\ (length p = 10 \/ (length p = 12 /\ startsWith p (js "91") = true)))
  /\ raw_phonebook_name c = Some (raw_original_name c)
  /\ raw_linkedin_name c = None /\ raw_email_name c = None.
Proof.
  unfold processPhonebookCSV. intros Hin.
  apply in_flat_map in Hin as (record & _ & Hin).
  unfold processPhonebookRecord in Hin.
  destruct (truthy (jsOr (record !! js "Full Name") (Some []))); [| done].
  cbn [andb] in Hin.
  destruct (truthy (jsOr _ _)) eqn:Hkey in Hin; [| done].
  destruct Hin as [<- | []]. cbn. split_and!; try done.
  - unfold jsOr in Hkey. destruct (truthy (extractEmail _ _)); auto.
  - intros p. apply phone_canonical_form.
Qed.

Lemma processPhonebookCSV_admits_witness :
  exists c,
    processPhonebookCSV toLowerCase [phonebook_record] = [c]
    /\ (truthy (raw_email c) = true \/ truthy (raw_phone c) = true)
    /\ raw_phonebook_name c = Some (raw_original_name c).
Proof.
  eexists. split; [by vm_compute |].
  match goal with
  | |- (truthy (raw_email ?c) = true \/ _) /\ _ =>
      destruct (processPhonebookCSV_admits toLowerCase [phonebook_record] c)
        as (H1 & _ & H3 & _)
  end.
  - vm_compute. by left.
  - split; [exact H1 | exact H3].
Defined.

(** ** Grouping rows by name *)

Example performFuzzyMatching_sample :
  map_to_list (performFuzzyMatching fuzzy_rows)
  ≡ₚ [(0, [mkRow 1 "John Smith"; mkRow 3 "John Smyth"]);
      (1, [mkRow 2 "Amy Wong"]); (3, [mkRow 4 "Li"])].
Proof.
  assert (H : performFuzzyMatching fuzzy_rows
              = <[0 := [mkRow 1 "John Smith"; mkRow 3 "John Smyth"]]>
                (<[1 := [mkRow 2 "Amy Wong"]]>
                (<[3 := [mkRow 4 "Li"]]> ∅))).
  { apply map_eq. intros i.
    destruct i as [| [| [| [| i]]]]; by vm_compute. }
  rewrite H. rewrite !map_to_list_insert, map_to_list_empty; done.
Qed.

(** What the inner loop adds to a group. *)
Lemma tryGroup_loop leader rest :
  forall group0 done0,
    exists added done',
      foldl (tryGroup leader) (group0, done0) rest = (group0 ++ added, done')
      /\ (forall x, x ∈ done' <-> x ∈ done0 \/ x ∈ row_id <$> added)
      /\ NoDup (row_id <$> added)
      /\ (forall r, r ∈ added ->
            r ∈ rest /\ (row_id r ∉ done0)
            /\ areNamesSimilar (row_normalized_name leader)
                 (row_normalized_name r) (7 # 10) = true).
Proof.
  induction rest as [| row rest IH]; intros group0 done0.
  - exists [], done0. cbn. rewrite app_nil_r. split_and!; try done.
    + intros x. split; [by left |]. intros [H | H]; [done |].
      by apply elem_of_nil in H.
    + constructor.
    + intros r Hr. by apply elem_of_nil in Hr.
  - cbn [foldl]. unfold tryGroup at 2.
    destruct (bool_decide (row_id row ∈ done0)) eqn:Hin;
      [| destruct (areNamesSimilar _ _ _) eqn:Hsim].
    + destruct (IH group0 done0) as (added & done' & Hrun & Hids & Hnd & Hadd).
      exists added, done'. split_and!; try done.
      intros r Hr. destruct (Hadd r Hr) as (? & ? & ?).
      split_and!; [by right | done | done].
    + apply bool_decide_eq_false in Hin.
      destruct (IH (group0 ++ [row]) ({[row_id row]} ∪ done0))
        as (added & done' & Hrun & Hids & Hnd & Hadd).
      exists (row :: added), done'. split_and!.
      * rewrite Hrun. by rewrite <- app_assoc.
      * intros x. rewrite Hids. cbn [fmap list_fmap].
        rewrite elem_of_union, elem_of_singleton, elem_of_cons. tauto.
      * cbn [fmap list_fmap]. apply NoDup_cons. split; [| done].
        intros Hrow. apply list_elem_of_fmap in Hrow as (r & Heq & Hr).
        destruct (Hadd r Hr) as (_ & Hnot & _). apply Hnot.
        apply elem_of_union. left. apply elem_of_singleton. congruence.
      * intros r Hr. apply elem_of_cons in Hr as [-> | Hr].
        { split_and!; [by left | done | done]. }
        destruct (Hadd r Hr) as (? & Hnot & ?).
        split_and!; [by right | set_solver | done].
    + destruct (IH group0 done0) as (added & done' & Hrun & Hids & Hnd & Hadd).
      exists added, done'. split_and!; try done.
      intros r Hr. destruct (Hadd r Hr) as (? & ? & ?).
      split_and!; [by right | done | done].
Qed.

Lemma GroupInv_init rows : GroupInv rows 0 (∅, ∅).
Proof.
  split; cbn; rewrite ?map_to_list_empty; cbn.
  - intros x. split; intros H; [set_solver | by apply elem_of_nil in H].
  - constructor.
  - intros r Hr. by apply elem_of_nil in Hr.
  - intros r Hr. rewrite take_0 in Hr. by apply elem_of_nil in Hr.
  - intros i group Hi. by rewrite lookup_empty in Hi.
Qed.

Lemma GroupInv_step rows k st :
  k < length rows -> GroupInv rows k st -> GroupInv rows (S k) (groupStep rows st k).
Proof.
  intros Hk [Iids Inodup Irows Idone Igroup]. destruct st as [groups done].
  cbn [fst snd] in *. unfold groupStep.
  destruct (lookup_lt_is_Some_2 rows k Hk) as [leader Hleader].
  rewrite Hleader.
  assert (Htake : forall r, r ∈ take (S k) rows -> r ∈ take k rows \/ r = leader).
  { intros r. rewrite (take_S_r rows k leader Hleader), elem_of_app,
      list_elem_of_singleton. tauto. }
  destruct (bool_decide (row_id leader ∈ done)) eqn:Hin.
  - apply bool_decide_eq_true in Hin. split; cbn [fst snd]; try done.
    + intros r Hr. destruct (Htake r Hr) as [Hr' | ->]; [by apply Idone | done].
    + intros i group Hi. destruct (Igroup i group Hi) as [Hlt Hrest].
      split; [lia | done].
  - apply bool_decide_eq_false in Hin.
    destruct (tryGroup_loop leader (drop (S k) rows) [leader]
                ({[row_id leader]} ∪ done))
      as (added & done' & -> & Hids & Hnd & Hadd).
    assert (Hfresh : groups !! k = None).
    { destruct (groups !! k) as [g |] eqn:Hg; [| done].
      destruct (Igroup k g Hg) as [Hlt _]. lia. }
    assert (Hperm : concat ((map_to_list (<[k := [leader] ++ added]> groups)).*2)
                    ≡ₚ (leader :: added) ++ concat ((map_to_list groups).*2)).
    { rewrite (map_to_list_insert groups k _ Hfresh). done. }
    split; cbn [fst snd].
    + intros x. rewrite Hperm, fmap_app, elem_of_app, Hids.
      cbn [fmap list_fmap]. rewrite elem_of_union, elem_of_singleton,
        elem_of_cons, Iids. tauto.
    + rewrite Hperm, fmap_app. apply NoDup_app. split_and!.
      * cbn [fmap list_fmap]. apply NoDup_cons. split; [| done].
        intros Hl. apply list_elem_of_fmap in Hl as (r & Heq & Hr).
        destruct (Hadd r Hr) as (_ & Hnot & _). apply Hnot.
        apply elem_of_union. left. apply elem_of_singleton. congruence.
      * intros x Hx Hx'. apply Iids in Hx'.
        cbn [fmap list_fmap] in Hx. apply elem_of_cons in Hx as [-> | Hx];
          [done |].
        apply list_elem_of_fmap in Hx as (r & -> & Hr).
        destruct (Hadd r Hr) as (_ & Hnot & _). apply Hnot. set_solver.
      * done.
    + intros r. rewrite Hperm, elem_of_app, elem_of_cons.
      intros [[-> | Hr] | Hr]; [| | by apply Irows].
      * by eapply list_elem_of_lookup_2.
      * destruct (Hadd r Hr) as (Hdrop & _).
        apply list_elem_of_lookup_1 in Hdrop as [j Hj].
        rewrite lookup_drop in Hj. by eapply list_elem_of_lookup_2.
    + intros r Hr. apply Hids.
      destruct (Htake r Hr) as [Hr' | ->]; [| set_solver].
      left. apply elem_of_union. right. by apply Idone.
    + intros i group Hi. destruct (decide (i = k)) as [-> | Hne].
      * rewrite lookup_insert_eq in Hi. injection Hi as <-.
        split; [lia |]. exists leader, added. split_and!; [done | done |].
        apply List.Forall_forall. intros r Hr.
        apply list_elem_of_In in Hr. by destruct (Hadd r Hr) as (_ & _ & ?).
      * rewrite lookup_insert_ne in Hi by done.
        destruct (Igroup i group Hi) as [Hlt Hrest]. split; [lia | done].
Qed.

Lemma performFuzzyMatching_inv rows :
  GroupInv rows (length rows)
    (foldl (groupStep rows) (∅, ∅) (seq 0 (length rows))).
Proof.
  apply (foldl_seq_invariant (GroupInv rows) _ (length rows) 0).
  - apply GroupInv_init.
  - intros k st Hk. apply GroupInv_step. lia.
Qed.

(** X25: on rows with distinct ids, [performFuzzyMatching] splits the rows
    into groups: every row is in one group and in one only, the group
    under key [i] starts with the row [rows[i]], and every other row of a
    group has a name similar at 0.7 to the name of the first. *)
Theorem performFuzzyMatching_partition (rows : list FuzzyRow) :
  NoDup (row_id <$> rows) ->
  let groups := performFuzzyMatching rows in
  concat ((map_to_list groups).*2) ≡ₚ rows
  /\ forall i group,
       groups !! i = Some group ->
       exists leader members,
         rows !! i = Some leader /\ group = leader :: members
         /\ Forall (fun r =>
                      areNamesSimilar (row_normalized_name leader)
                        (row_normalized_name r) (7 # 10) = true) members.
Proof.
  intros Hnd groups. subst groups. unfold performFuzzyMatching.
  pose proof (performFuzzyMatching_inv rows) as [Iids Inodup Irows Idone Igroup].
  set (st := foldl (groupStep rows) (∅, ∅) (seq 0 (length rows))) in *.
  split.
  - apply NoDup_Permutation.
    + by apply NoDup_fmap_1 in Inodup.
    + by apply NoDup_fmap_1 in Hnd.
    + intros r. split; [apply Irows |]. intros Hr.
      assert (Hid : row_id r ∈ st.2).
      { apply Idone. by rewrite firstn_all. }
      apply Iids in Hid. apply list_elem_of_fmap in Hid as (g & Heq & Hg).
      assert (g = r); [| by subst].
      pose proof (Irows g Hg) as Hgr.
      apply list_elem_of_lookup_1 in Hgr as [i Hi].
      apply list_elem_of_lookup_1 in Hr as [j Hj].
      assert (i = j); [| congruence].
      apply (NoDup_lookup (row_id <$> rows) i j (row_id g)); [done | |].
      * by rewrite list_lookup_fmap, Hi.
      * rewrite list_lookup_fmap, Hj. cbn. by rewrite Heq.
  - intros i group Hi. by destruct (Igroup i group Hi) as [_ ?].
Qed.

Lemma performFuzzyMatching_partition_witness :
  concat ((map_to_list (performFuzzyMatching fuzzy_rows)).*2) ≡ₚ fuzzy_rows.
Proof.
  refine (proj1 (performFuzzyMatching_partition fuzzy_rows _)).
  cbn. repeat (apply NoDup_cons; split; [set_solver |]). constructor.
Defined.

(** ** More on ranking *)

Section RankingAgain.

Variable localeCompare : jsstring -> jsstring -> Z.

Hypothesis localeCompare_antisym : forall a b,
  (0 < localeCompare a b -> localeCompare b a <= 0)%Z.
Hypothesis localeCompare_trans : forall a b c,
  (localeCompare a b <= 0 -> localeCompare b c <= 0 ->
   localeCompare a c <= 0)%Z.

Lemma insertSorted_first x l :
  Forall (ranked localeCompare x) l ->
  insertSorted (compareContacts localeCompare) x l = x :: l.
Proof.
  destruct 1 as [| y l Hy Hl]; [done |].
  cbn. unfold ranked in Hy.
  by destruct (Z.leb_spec (compareContacts localeCompare x y) 0); [| lia].
Qed.

Lemma rankContacts_of_sorted l :
  StronglySorted (ranked localeCompare) l -> rankContacts localeCompare l = l.
Proof.
  unfold rankContacts, jsSort.
  induction 1 as [| x l Hl IH Hx]; [done |].
  cbn [foldr]. rewrite IH. by apply insertSorted_first.
Qed.

(** X26: the final sort leaves a ranked list as it is: ranking the
    records twice gives what ranking them once gives. *)
Theorem rankContacts_idempotent (mergedResults : list Contact) :
  rankContacts localeCompare (rankContacts localeCompare mergedResults)
  = rankContacts localeCompare mergedResults.
Proof.
  apply rankContacts_of_sorted.
  by apply rankContacts_sorted.
Qed.

End RankingAgain.

Lemma rankContacts_idempotent_witness :
  rankContacts compareUnits (rankContacts compareUnits ranking_sample)
  = rankContacts compareUnits ranking_sample.
Proof.
  exact (rankContacts_idempotent compareUnits compareUnits_antisym
           compareUnits_trans ranking_sample).
Defined.

(** ** More on the exhaustive merge pass *)

Lemma tryMergePairwise_keeps contacts k c js :
  contacts !! k = Some c -> getNameForComparison c = None ->
  forall current seen,
    k ∉ seen ->
    k ∉ (foldl (tryMergePairwise contacts) (current, seen) js).2.
Proof.
  intros Hk Hname. induction js as [| j js IH]; intros current seen Hseen;
    [done |].
  cbn [foldl].
  destruct (tryMergePairwise contacts (current, seen) j)
    as [current' seen'] eqn:Hstep.
  apply IH. unfold tryMergePairwise in Hstep.
  destruct (bool_decide (j ∈ seen)); [(injection Hstep as <- <-; done) |].
  destruct (contacts !! j) as [cj |] eqn:Hcj; [| (injection Hstep as <- <-; done)].
  destruct (conflicting (email current) (email cj));
    [(injection Hstep as <- <-; done) |].
  destruct (conflicting (phone current) (phone cj));
    [(injection Hstep as <- <-; done) |].
  destruct (truthy (getNameForComparison current)
            && truthy (getNameForComparison cj)
            && areNamesSimilar _ _ _) eqn:Hmerge;
    [| (injection Hstep as <- <-; done)].
  injection Hstep as <- <-.
  apply andb_true_iff in Hmerge as [Hmerge _].
  apply andb_true_iff in Hmerge as [_ Hcand].
  intros Hin. apply elem_of_union in Hin as [Hin | Hin]; [| done].
  apply elem_of_singleton in Hin as ->.
  rewrite Hk in Hcj. injection Hcj as <-. by rewrite Hname in Hcand.
Qed.

Lemma tryMergePairwise_nameless contacts c js :
  getNameForComparison c = None ->
  forall seen, foldl (tryMergePairwise contacts) (c, seen) js = (c, seen).
Proof.
  intros Hname. induction js as [| j js IH]; intros seen; [done |].
  cbn [foldl]. replace (tryMergePairwise contacts (c, seen) j) with (c, seen);
    [apply IH |].
  unfold tryMergePairwise.
  destruct (bool_decide (j ∈ seen)); [done |].
  destruct (contacts !! j) as [cj |]; [| done].
  destruct (conflicting (email c) (email cj)); [done |].
  destruct (conflicting (phone c) (phone cj)); [done |].
  by rewrite Hname.
Qed.

(** X27: the exhaustive pass too leaves a candidate without any name
    alone: a record whose three name slots are ['N/A'] is in the output
    as it entered. *)
Theorem pairwise_nameless_untouched (contacts : list Contact) (k : nat)
    (c : Contact) :
  contacts !! k = Some c ->
  linkedin_name c = NA -> phonebook_name c = NA -> email_name c = NA ->
  c ∈ mergeSimilarContacts contacts.
Proof.
  intros Hk Hl Hp He.
  pose proof (getNameForComparison_none c Hl Hp He) as Hname.
  unfold mergeSimilarContacts.
  assert (Hinv : let st := foldl (processContactPairwise contacts) ([], ∅)
                             (seq 0 (length contacts)) in
                 (0 + length contacts <= k -> k ∉ st.2)
                 /\ (k < 0 + length contacts -> c ∈ st.1)).
  { apply (foldl_seq_invariant
      (fun i (st : list Contact * gset nat) =>
         (i <= k -> k ∉ st.2) /\ (k < i -> c ∈ st.1))
      _ (length contacts) 0).
    - split; [set_solver | lia].
    - intros i [out seen] Hi [Hbefore Hafter]. cbn [fst snd] in *.
      unfold processContactPairwise.
      destruct (bool_decide (i ∈ seen)) eqn:Hin.
      { apply bool_decide_eq_true in Hin. cbn [fst snd]. split.
        - intros Hle. apply Hbefore. lia.
        - intros Hlt. destruct (decide (i = k)) as [-> | Hne].
          + exfalso. by apply Hbefore.
          + apply Hafter. lia. }
      destruct (contacts !! i) as [ci |] eqn:Hci.
      2:{ apply lookup_ge_None in Hci. lia. }
      destruct (foldl _ _ _) as [current seen'] eqn:Hrun. cbn [fst snd].
      split.
      + intros Hle.
        pose proof (tryMergePairwise_keeps contacts k c
                      (seq (S i) (length contacts - S i)) Hk Hname
                      ci ({[i]} ∪ seen)) as Hkeep.
        rewrite Hrun in Hkeep. apply Hkeep.
        intros Hin'. apply elem_of_union in Hin' as [Hin' | Hin'].
        * apply elem_of_singleton in Hin'. lia.
        * revert Hin'. apply Hbefore. lia.
      + intros Hlt. apply elem_of_app.
        destruct (decide (i = k)) as [-> | Hne].
        * right. rewrite Hk in Hci. injection Hci as <-.
          rewrite (tryMergePairwise_nameless contacts c _ Hname) in Hrun.
          injection Hrun as <- _. by left.
        * left. apply Hafter. lia. }
  cbv zeta in Hinv. destruct Hinv as [_ Hafter].
  apply Hafter. apply lookup_lt_Some in Hk. lia.
Qed.

Lemma pairwise_nameless_untouched_witness :
  mkContact "N/A" "N/A" "N/A" (str "asha@x.com") None
  ∈ mergeSimilarContacts nameless_sample.
Proof.
  apply (pairwise_nameless_untouched nameless_sample 1); reflexivity.
Defined.
